(** * DocumentStorage: a shallow embedding of [solidity/document_issue.sol]

    The contract keeps three owner slots, two authorization lists
    (issuers and revokers, each an index mapping plus an array) and, per
    user id, an array of documents.  Every external function is embedded
    as a computation in a small state/error/event monad; a reverted call
    leaves the storage as it was. *)

From stdpp Require Import gmap strings list fin_maps.
From Stdlib Require Import NArith Lia.

Local Open Scope N_scope.

(** ** Data *)

(** [address] is a 160-bit word, [bytes32] and [uint256] are 256-bit words.
    The contract only compares addresses and hashes for equality, so they
    are kept as binary naturals; the arithmetic done on [uint256] values is
    checked (Solidity 0.8) and is written out below. *)
Abbreviation address := N (only parsing).
Abbreviation bytes32 := N (only parsing).
Abbreviation uint256 := N (only parsing).

Definition UINT256_MAX : N := 2 ^ 256 - 1.

Record Document := mkDocument {
  sha256Hash : bytes32;
  ipfsCID : string
}.

Inductive Event :=
| DocumentStored (userId : uint256) (hash : bytes32) (cid : string)
| DocumentRevoked (userId : uint256) (hash : bytes32) (cid : string)
| IssuerAdded (issuer : address)
| IssuerRemoved (issuer : address)
| RevokerAdded (revoker : address)
| RevokerRemoved (revoker : address).

(** Status word of the reentrancy guard. *)
Inductive GuardStatus := NOT_ENTERED | ENTERED.

Record State := mkState {
  _initialized : bool;
  _status : GuardStatus;
  owners : list address;                    (* address[3] *)
  issuerIndex : gmap N N;                   (* mapping(address => uint256) *)
  issuerList : list address;                (* address[] *)
  revokerIndex : gmap N N;
  revokerList : list address;
  _userDocuments : gmap N (list Document)   (* mapping(uint256 => Document[]) *)
}.

(** Storage of a freshly deployed (proxied) contract: every slot is zero. *)
Definition deployed : State :=
  mkState false NOT_ENTERED [0; 0; 0] ∅ [] ∅ [] ∅.

(** The transaction context a call runs in. *)
Record Env := mkEnv {
  msg_sender : address;
  tx_origin : address
}.

(** Field updates. *)
Definition set_initialized (b : bool) (st : State) : State :=
  mkState b (_status st) (owners st) (issuerIndex st) (issuerList st)
          (revokerIndex st) (revokerList st) (_userDocuments st).

Definition set_status (g : GuardStatus) (st : State) : State :=
  mkState (_initialized st) g (owners st) (issuerIndex st) (issuerList st)
          (revokerIndex st) (revokerList st) (_userDocuments st).

Definition set_owners (o : list address) (st : State) : State :=
  mkState (_initialized st) (_status st) o (issuerIndex st) (issuerList st)
          (revokerIndex st) (revokerList st) (_userDocuments st).

Definition set_issuerIndex (m : gmap N N) (st : State) : State :=
  mkState (_initialized st) (_status st) (owners st) m (issuerList st)
          (revokerIndex st) (revokerList st) (_userDocuments st).

Definition set_issuerList (l : list address) (st : State) : State :=
  mkState (_initialized st) (_status st) (owners st) (issuerIndex st) l
          (revokerIndex st) (revokerList st) (_userDocuments st).

Definition set_revokerIndex (m : gmap N N) (st : State) : State :=
  mkState (_initialized st) (_status st) (owners st) (issuerIndex st)
          (issuerList st) m (revokerList st) (_userDocuments st).

Definition set_revokerList (l : list address) (st : State) : State :=
  mkState (_initialized st) (_status st) (owners st) (issuerIndex st)
          (issuerList st) (revokerIndex st) l (_userDocuments st).

Definition set_userDocuments (m : gmap N (list Document)) (st : State) : State :=
  mkState (_initialized st) (_status st) (owners st) (issuerIndex st)
          (issuerList st) (revokerIndex st) (revokerList st) m.

(** Reading a mapping: a key never written reads as zero / the empty array. *)
Definition index_of (m : gmap N N) (a : address) : uint256 :=
  default 0 (m !! a).

Definition docs_of (st : State) (userId : uint256) : list Document :=
  default [] (_userDocuments st !! userId).

(** [owners[i]] for a constant [i < 3]. *)
Definition owner_slot (st : State) (i : nat) : address :=
  default 0 (owners st !! i).

(** ** The execution monad *)

Inductive Error :=
| Revert (reason : string)     (* a failed [require], with its message *)
| Panic (code : N)             (* 0x11 arithmetic, 0x31 empty pop, 0x32 index *)
| AlreadyInitialized           (* raised by [initializer] *)
| ReentrancyError.             (* raised by [nonReentrant] *)

Inductive Result (A : Type) :=
| Ok (a : A)
| Err (e : Error).
Arguments Ok {A} a.
Arguments Err {A} e.

(** A computation reads the storage and either fails or returns a value,
    the new storage and the events it logged, oldest first. *)
Definition Exec (A : Type) : Type := State → Result (A * State * list Event).

Definition ret {A} (a : A) : Exec A := λ st, Ok (a, st, []).

Definition bind {A B} (m : Exec A) (k : A → Exec B) : Exec B := λ st,
  match m st with
  | Ok (a, st1, ev1) =>
      match k a st1 with
      | Ok (b, st2, ev2) => Ok (b, st2, ev1 ++ ev2)
      | Err e => Err e
      end
  | Err e => Err e
  end.

Definition throw {A} (e : Error) : Exec A := λ _, Err e.

Definition gets {A} (f : State → A) : Exec A := λ st, Ok (f st, st, []).

Definition modify (f : State → State) : Exec unit := λ st, Ok (tt, f st, []).

Definition emit (ev : Event) : Exec unit := λ st, Ok (tt, st, [ev]).

Definition require (b : bool) (reason : string) : Exec unit :=
  if b then ret tt else throw (Revert reason).

Declare Scope exec_scope.
Delimit Scope exec_scope with exec.
Notation "x <- m ;; k" := (bind m (λ x, k))
  (at level 100, m at next level, right associativity) : exec_scope.
Notation "m ;; k" := (bind m (λ _, k))
  (at level 100, right associativity) : exec_scope.
Local Open Scope exec_scope.

(** Checked [uint256] arithmetic. *)
Definition checked_add (a b : uint256) : Exec uint256 :=
  if a + b <=? UINT256_MAX then ret (a + b) else throw (Panic 17).

Definition checked_sub (a b : uint256) : Exec uint256 :=
  if b <=? a then ret (a - b) else throw (Panic 17).

(** Bounds-checked array access. *)
Definition array_length {A} (l : list A) : uint256 := N.of_nat (length l).

Definition array_read {A} (l : list A) (i : uint256) : Exec A :=
  match l !! N.to_nat i with
  | Some x => ret x
  | None => throw (Panic 50)
  end.

Definition array_write {A} (l : list A) (i : uint256) (x : A) : Exec (list A) :=
  if i <? array_length l then ret (<[N.to_nat i := x]> l) else throw (Panic 50).

Definition array_pop {A} (l : list A) : Exec (list A) :=
  match l with
  | [] => throw (Panic 49)
  | _ => ret (removelast l)
  end.

(** ** Modifiers *)

(** The test of [onlyOwners]; [storeDocument] and [revokeDocument] repeat
    the same three comparisons in their own [require]. *)
Definition isOwner (st : State) (a : address) : bool :=
  (a =? owner_slot st 0) || (a =? owner_slot st 1) || (a =? owner_slot st 2).

Definition onlyOwners {A} (env : Env) (body : Exec A) : Exec A :=
  st <- gets id;;
  require (isOwner st (msg_sender env)) "Not an owner";;
  body.

(** Modelled from the spec: the [initializer] modifier is inherited from
    OpenZeppelin's [Initializable], whose text is not part of the sources.
    It lets the body run once and fails with [AlreadyInitialized] on any
    later call.  The library's own [Initialized] event is not among the
    events of this contract and is left out of the log. *)
Definition initializer {A} (body : Exec A) : Exec A :=
  already <- gets _initialized;;
  if already : bool then throw AlreadyInitialized
  else (modify (set_initialized true);; body).

(** Modelled from the spec: the [nonReentrant] modifier is inherited from
    OpenZeppelin's [ReentrancyGuard], whose text is not part of the sources.
    A single status word is set on entry and cleared on exit; a call that
    finds it set fails with [ReentrancyError]. *)
Definition nonReentrant {A} (body : Exec A) : Exec A :=
  s <- gets _status;;
  match s with
  | ENTERED => throw ReentrancyError
  | NOT_ENTERED =>
      modify (set_status ENTERED);;
      r <- body;;
      modify (set_status NOT_ENTERED);;
      ret r
  end.

(** [__UUPSUpgradeable_init] has an empty body. *)
Definition __UUPSUpgradeable_init : Exec unit := ret tt.

(** ** External functions *)

Definition initialize (_owner2 _owner3 : address) (env : Env) : Exec unit :=
  initializer (
    require (msg_sender env =? tx_origin env) "Only the deployer can initialize";;
    modify (λ st, set_owners (<[0%nat := msg_sender env]> (owners st)) st);;
    modify (λ st, set_owners (<[1%nat := _owner2]> (owners st)) st);;
    modify (λ st, set_owners (<[2%nat := _owner3]> (owners st)) st);;
    __UUPSUpgradeable_init).

Definition _authorizeUpgrade (newImplementation : address) (env : Env) : Exec unit :=
  onlyOwners env (ret tt).

Definition addAuthorizedIssuer (issuer : address) (env : Env) : Exec unit :=
  onlyOwners env (
    idx <- gets issuerIndex;;
    l <- gets issuerList;;
    require ((index_of idx issuer =? 0) &&
             ((array_length l =? 0) || negb (default 0 (l !! 0%nat) =? issuer)))
            "User already authorized";;
    n <- checked_add (array_length l) 1;;
    modify (λ st, set_issuerIndex (<[issuer := n]> (issuerIndex st)) st);;
    modify (λ st, set_issuerList (issuerList st ++ [issuer]) st);;
    emit (IssuerAdded issuer)).

Definition removeAuthorizedIssuer (issuer : address) (env : Env) : Exec unit :=
  onlyOwners env (
    cur <- gets (λ st, index_of (issuerIndex st) issuer);;
    require (0 <? cur) "User is not authorized";;
    index <- checked_sub cur 1;;
    len <- gets (λ st, array_length (issuerList st));;
    lastIndex <- checked_sub len 1;;
    (if negb (index =? lastIndex) then
       l <- gets issuerList;;
       moved <- array_read l lastIndex;;
       l' <- array_write l index moved;;
       modify (set_issuerList l');;
       l2 <- gets issuerList;;
       key <- array_read l2 index;;
       n <- checked_add index 1;;
       modify (λ st, set_issuerIndex (<[key := n]> (issuerIndex st)) st)
     else ret tt);;
    l <- gets issuerList;;
    l' <- array_pop l;;
    modify (set_issuerList l');;
    modify (λ st, set_issuerIndex (delete issuer (issuerIndex st)) st);;
    emit (IssuerRemoved issuer)).

Definition addAuthorizedRevoker (revoker : address) (env : Env) : Exec unit :=
  onlyOwners env (
    idx <- gets revokerIndex;;
    l <- gets revokerList;;
    require ((index_of idx revoker =? 0) &&
             ((array_length l =? 0) || negb (default 0 (l !! 0%nat) =? revoker)))
            "User already authorized";;
    n <- checked_add (array_length l) 1;;
    modify (λ st, set_revokerIndex (<[revoker := n]> (revokerIndex st)) st);;
    modify (λ st, set_revokerList (revokerList st ++ [revoker]) st);;
    emit (RevokerAdded revoker)).

Definition removeAuthorizedRevoker (revoker : address) (env : Env) : Exec unit :=
  onlyOwners env (
    cur <- gets (λ st, index_of (revokerIndex st) revoker);;
    require (0 <? cur) "User is not authorized";;
    index <- checked_sub cur 1;;
    len <- gets (λ st, array_length (revokerList st));;
    lastIndex <- checked_sub len 1;;
    (if negb (index =? lastIndex) then
       l <- gets revokerList;;
       moved <- array_read l lastIndex;;
       l' <- array_write l index moved;;
       modify (set_revokerList l');;
       l2 <- gets revokerList;;
       key <- array_read l2 index;;
       n <- checked_add index 1;;
       modify (λ st, set_revokerIndex (<[key := n]> (revokerIndex st)) st)
     else ret tt);;
    l <- gets revokerList;;
    l' <- array_pop l;;
    modify (set_revokerList l');;
    modify (λ st, set_revokerIndex (delete revoker (revokerIndex st)) st);;
    emit (RevokerRemoved revoker)).

Definition getAllAuthorizedIssuers (st : State) : list address := issuerList st.

Definition getAllAuthorizedRevokers (st : State) : list address := revokerList st.

(** The inline membership tests of [storeDocument] and [revokeDocument]. *)
Definition isIssuer (st : State) (a : address) : bool :=
  0 <? index_of (issuerIndex st) a.

Definition isRevoker (st : State) (a : address) : bool :=
  0 <? index_of (revokerIndex st) a.

(** The duplicate check: one [require] per stored document, in order. *)
Fixpoint store_scan (docs : list Document) (hash : bytes32) : Exec unit :=
  match docs with
  | [] => ret tt
  | d :: rest =>
      require (negb (sha256Hash d =? hash)) "Document already stored";;
      store_scan rest hash
  end.

Definition storeDocument (userId : uint256) (hash : bytes32) (cid : string)
    (env : Env) : Exec unit :=
  nonReentrant (
    st <- gets id;;
    require (isIssuer st (msg_sender env) ||
             (msg_sender env =? owner_slot st 0) ||
             (msg_sender env =? owner_slot st 1) ||
             (msg_sender env =? owner_slot st 2))
            "Not authorized to store";;
    docs <- gets (λ st, docs_of st userId);;
    store_scan docs hash;;
    modify (λ st, set_userDocuments
       (<[userId := docs_of st userId ++ [mkDocument hash cid]]> (_userDocuments st)) st);;
    emit (DocumentStored userId hash cid)).

(** The revocation loop.  [rest] holds the documents from position [i] on;
    the first one whose hash matches is logged, overwritten by the last
    document and the array is popped, which ends the loop ([break]).
    [i] stays below the array length, so [i++] cannot overflow. *)
Fixpoint revoke_scan (userId : uint256) (hash : bytes32)
    (rest : list Document) (i : uint256) : Exec unit :=
  match rest with
  | [] => ret tt
  | d :: rest' =>
      if sha256Hash d =? hash then
        emit (DocumentRevoked userId (sha256Hash d) (ipfsCID d));;
        docs <- gets (λ st, docs_of st userId);;
        lastIndex <- checked_sub (array_length docs) 1;;
        lastDoc <- array_read docs lastIndex;;
        docs1 <- array_write docs i lastDoc;;
        docs2 <- array_pop docs1;;
        modify (λ st, set_userDocuments (<[userId := docs2]> (_userDocuments st)) st)
      else revoke_scan userId hash rest' (i + 1)
  end.

Definition revokeDocument (userId : uint256) (hash : bytes32) (env : Env) : Exec unit :=
  nonReentrant (
    st <- gets id;;
    require (isRevoker st (msg_sender env) ||
             (msg_sender env =? owner_slot st 0) ||
             (msg_sender env =? owner_slot st 1) ||
             (msg_sender env =? owner_slot st 2))
            "Not authorized to revoke";;
    docs <- gets (λ st, docs_of st userId);;
    revoke_scan userId hash docs 0).

Definition getDocuments (st : State) (userId : uint256) : list bytes32 * list string :=
  (sha256Hash <$> docs_of st userId, ipfsCID <$> docs_of st userId).

Definition getDocumentCount (st : State) (userId : uint256) : uint256 :=
  array_length (docs_of st userId).

(** ** Transactions *)

(** The entry points.  [AuthorizeUpgrade] stands for the owner gate that
    the inherited upgrade functions run; replacing the code itself is
    outside this model. *)
Inductive Call :=
| Initialize (_owner2 _owner3 : address)
| AuthorizeUpgrade (newImplementation : address)
| AddAuthorizedIssuer (issuer : address)
| RemoveAuthorizedIssuer (issuer : address)
| AddAuthorizedRevoker (revoker : address)
| RemoveAuthorizedRevoker (revoker : address)
| StoreDocument (userId : uint256) (hash : bytes32) (cid : string)
| RevokeDocument (userId : uint256) (hash : bytes32).

Definition dispatch (c : Call) (env : Env) : Exec unit :=
  match c with
  | Initialize o2 o3 => initialize o2 o3 env
  | AuthorizeUpgrade impl => _authorizeUpgrade impl env
  | AddAuthorizedIssuer a => addAuthorizedIssuer a env
  | RemoveAuthorizedIssuer a => removeAuthorizedIssuer a env
  | AddAuthorizedRevoker a => addAuthorizedRevoker a env
  | RemoveAuthorizedRevoker a => removeAuthorizedRevoker a env
  | StoreDocument u h c => storeDocument u h c env
  | RevokeDocument u h => revokeDocument u h env
  end.

(** A transaction either commits the new storage and its events, or
    reverts: the storage is the one before the call and nothing is logged. *)
Definition transact (c : Call) (env : Env) (st : State)
    : State * list Event * option Error :=
  match dispatch c env st with
  | Ok (_, st', evs) => (st', evs, None)
  | Err e => (st, [], Some e)
  end.

(** The states the contract can be in between two transactions. *)
Inductive reachable : State → Prop :=
| reachable_deployed : reachable deployed
| reachable_call st c env st' evs :
    reachable st →
    dispatch c env st = Ok (tt, st', evs) →
    reachable st'.

(** Running a list of calls, committed or reverted, from a state. *)
Fixpoint run (cs : list (Call * Env)) (st : State) : State :=
  match cs with
  | [] => st
  | (c, env) :: cs' => run cs' (transact c env st).1.1
  end.

(** * Specification vocabulary

    Pure readings of what the contract's functions do, the invariants, and
    a concrete run used to instantiate the theorems. *)

(** Swap-and-pop: slot [i] is overwritten with the last element and the
    array loses its last slot.  Both removals of the contract do this. *)
Definition swap_remove {A} (i : nat) (l : list A) : list A :=
  match last l with
  | Some x => removelast (<[i := x]> l)
  | None => l
  end.

(** What [addAuthorizedIssuer] / [addAuthorizedRevoker] do to their
    (index mapping, array) pair, as a function of that pair. *)
Definition add_member (a : address) (idx : gmap N N) (l : list address)
    : Result (gmap N N * list address) :=
  if (index_of idx a =? 0) &&
     ((array_length l =? 0) || negb (default 0 (l !! 0%nat) =? a))
  then
    if array_length l + 1 <=? UINT256_MAX
    then Ok (<[a := array_length l + 1]> idx, l ++ [a])
    else Err (Panic 17)
  else Err (Revert "User already authorized").

(** What [removeAuthorizedIssuer] / [removeAuthorizedRevoker] do to their
    pair. *)
Definition remove_member (a : address) (idx : gmap N N) (l : list address)
    : Result (gmap N N * list address) :=
  let cur := index_of idx a in
  if 0 <? cur then
    let index := cur - 1 in
    if 1 <=? array_length l then
      let lastIndex := array_length l - 1 in
      if index =? lastIndex then Ok (delete a idx, removelast l)
      else
        match l !! N.to_nat lastIndex with
        | Some moved =>
            if index <? array_length l then
              if index + 1 <=? UINT256_MAX
              then Ok (delete a (<[moved := index + 1]> idx),
                       removelast (<[N.to_nat index := moved]> l))
              else Err (Panic 17)
            else Err (Panic 50)
        | None => Err (Panic 50)
        end
    else Err (Panic 17)
  else Err (Revert "User is not authorized").

(** The index mapping and the array agree: slot [i] holds [a] exactly when
    the index entry of [a] is [i + 1]. *)
Definition index_ok (idx : gmap N N) (l : list address) : Prop :=
  array_length l ≤ UINT256_MAX ∧
  ∀ a i, l !! i = Some a ↔ index_of idx a = N.of_nat (S i).

(** The duplicate check fails exactly when the hash is already stored. *)
Definition has_hash (hash : bytes32) (docs : list Document) : bool :=
  existsb (λ d, sha256Hash d =? hash) docs.

(** The authorization tests of [storeDocument] and [revokeDocument]. *)
Definition canStore (st : State) (a : address) : bool :=
  isIssuer st a || isOwner st a.

Definition canRevoke (st : State) (a : address) : bool :=
  isRevoker st a || isOwner st a.

(** What a successful call does, case by case. *)
Definition step_spec (c : Call) (env : Env) (st st' : State) (evs : list Event) : Prop :=
  match c with
  | Initialize o2 o3 =>
      _initialized st = false ∧ msg_sender env = tx_origin env ∧
      st' = set_owners (<[2%nat := o3]> (<[1%nat := o2]>
                          (<[0%nat := msg_sender env]> (owners st))))
                       (set_initialized true st) ∧
      evs = []
  | AuthorizeUpgrade _ =>
      isOwner st (msg_sender env) = true ∧ st' = st ∧ evs = []
  | AddAuthorizedIssuer a =>
      isOwner st (msg_sender env) = true ∧
      ∃ idx' l', add_member a (issuerIndex st) (issuerList st) = Ok (idx', l') ∧
        st' = set_issuerList l' (set_issuerIndex idx' st) ∧ evs = [IssuerAdded a]
  | RemoveAuthorizedIssuer a =>
      isOwner st (msg_sender env) = true ∧
      ∃ idx' l', remove_member a (issuerIndex st) (issuerList st) = Ok (idx', l') ∧
        st' = set_issuerIndex idx' (set_issuerList l' st) ∧ evs = [IssuerRemoved a]
  | AddAuthorizedRevoker a =>
      isOwner st (msg_sender env) = true ∧
      ∃ idx' l', add_member a (revokerIndex st) (revokerList st) = Ok (idx', l') ∧
        st' = set_revokerList l' (set_revokerIndex idx' st) ∧ evs = [RevokerAdded a]
  | RemoveAuthorizedRevoker a =>
      isOwner st (msg_sender env) = true ∧
      ∃ idx' l', remove_member a (revokerIndex st) (revokerList st) = Ok (idx', l') ∧
        st' = set_revokerIndex idx' (set_revokerList l' st) ∧ evs = [RevokerRemoved a]
  | StoreDocument u hash cid =>
      _status st = NOT_ENTERED ∧ canStore st (msg_sender env) = true ∧
      has_hash hash (docs_of st u) = false ∧
      st' = set_status NOT_ENTERED
              (set_userDocuments
                 (<[u := docs_of st u ++ [mkDocument hash cid]]> (_userDocuments st))
                 st) ∧
      evs = [DocumentStored u hash cid]
  | RevokeDocument u hash =>
      _status st = NOT_ENTERED ∧ canRevoke st (msg_sender env) = true ∧
      match list_find (λ d, sha256Hash d = hash) (docs_of st u) with
      | None => st' = set_status NOT_ENTERED st ∧ evs = []
      | Some (j, d) =>
          st' = set_status NOT_ENTERED
                  (set_userDocuments
                     (<[u := swap_remove j (docs_of st u)]> (_userDocuments st))
                     st) ∧
          evs = [DocumentRevoked u (sha256Hash d) (ipfsCID d)]
      end
  end.

(** No two records of one user's collection share a hash. *)
Definition docs_unique (st : State) : Prop :=
  ∀ u, NoDup (sha256Hash <$> docs_of st u).

(** What holds between two transactions. *)
Record invariant (st : State) : Prop := mkInvariant {
  inv_status : _status st = NOT_ENTERED;
  inv_owners : length (owners st) = 3%nat;
  inv_issuers : index_ok (issuerIndex st) (issuerList st);
  inv_revokers : index_ok (revokerIndex st) (revokerList st);
  inv_docs : docs_unique st
}.

(** What a swap-remove of [addr] leaves behind. *)
Definition swap_removed (addr : address) (l : list address)
    (idx' : gmap N N) (l' : list address) : Prop :=
  ∃ i moved,
    l !! i = Some addr ∧ last l = Some moved ∧
    l' = removelast (<[i := moved]> l) ∧
    (i ≠ pred (length l) →
       l' !! i = Some moved ∧ index_of idx' moved = N.of_nat i + 1) ∧
    length l' = pred (length l) ∧
    index_of idx' addr = 0 ∧
    (∀ m, m ∈ l' ↔ m ∈ l ∧ m ≠ addr) ∧
    (∀ m, m ∈ l' → (0 <? index_of idx' m) = true).

(** A concrete run: owners 101, 102, 103; issuer 201; revoker 301; then 201
    stores the document (7, cidA) for user 42, which 301 revokes; or three
    more issuers 1, 2, 3 are added. *)
Definition O1 : Env := mkEnv 101 101.
Definition O2 : Env := mkEnv 102 102.
Definition I1 : Env := mkEnv 201 201.
Definition R1 : Env := mkEnv 301 301.
Definition X : Env := mkEnv 999 999.

Definition st_setup : State :=
  run [(Initialize 102 103, O1);
       (AddAuthorizedIssuer 201, O1);
       (AddAuthorizedRevoker 301, O2)] deployed.

Definition st_stored : State :=
  run [(StoreDocument 42 7 "cidA", I1)] st_setup.

Definition st_revoked : State :=
  run [(RevokeDocument 42 7, R1)] st_stored.

Definition st_members : State :=
  run [(AddAuthorizedIssuer 1, O1);
       (AddAuthorizedIssuer 2, O1);
       (AddAuthorizedIssuer 3, O1)] st_stored.

(** What "the index mapping tracks the array" gives: membership is a
    nonzero index entry, and a member's entry is its slot number plus one. *)
Definition tracks (idx : gmap N N) (l : list address) : Prop :=
  (∀ a, a ∈ l ↔ index_of idx a ≠ 0) ∧
  (∀ a i, l !! i = Some a ↔ index_of idx a = N.of_nat i + 1).

(** States reached from a given state by successful calls. *)
Inductive reaches (st : State) : State → Prop :=
| reaches_refl : reaches st st
| reaches_call st1 c env st2 evs :
    reaches st st1 →
    dispatch c env st1 = Ok (tt, st2, evs) →
    reaches st st2.

(** One initialization by address 7 naming itself twice. *)
Definition st_same_owner : State :=
  run [(Initialize 7 7, mkEnv 7 7)] deployed.

(** The calls that carry [nonReentrant]. *)
Definition guarded (c : Call) : bool :=
  match c with
  | StoreDocument _ _ _ | RevokeDocument _ _ => true
  | _ => false
  end.

(** The functions behind [onlyOwners]. *)
Definition owner_only (c : Call) : bool :=
  match c with
  | AuthorizeUpgrade _
  | AddAuthorizedIssuer _ | RemoveAuthorizedIssuer _
  | AddAuthorizedRevoker _ | RemoveAuthorizedRevoker _ => true
  | _ => false
  end.

(** A state together with everything logged since deployment. *)
Inductive trace : State → list Event → Prop :=
| trace_deployed : trace deployed []
| trace_call st log c env st' evs :
    trace st log →
    dispatch c env st = Ok (tt, st', evs) →
    trace st' (log ++ evs).

(** [run], keeping the log. *)
Fixpoint run_log (cs : list (Call * Env)) (st : State) (log : list Event)
    : State * list Event :=
  match cs with
  | [] => (st, log)
  | (c, env) :: cs' =>
      let r := transact c env st in run_log cs' r.1.1 (log ++ r.1.2)
  end.

(** Replaying the log, as an off-chain reader would: whether an address is
    an issuer (a revoker) after the events read so far, and which reference
    a user's hash carries, if any. *)
Definition replay_issuer (a : address) (listed : bool) (ev : Event) : bool :=
  match ev with
  | IssuerAdded b => if b =? a then true else listed
  | IssuerRemoved b => if b =? a then false else listed
  | _ => listed
  end.

Definition replay_revoker (a : address) (listed : bool) (ev : Event) : bool :=
  match ev with
  | RevokerAdded b => if b =? a then true else listed
  | RevokerRemoved b => if b =? a then false else listed
  | _ => listed
  end.

Definition replay_document (u : uint256) (hash : bytes32)
    (cur : option string) (ev : Event) : option string :=
  match ev with
  | DocumentStored u' h' cid => if (u' =? u) && (h' =? hash) then Some cid else cur
  | DocumentRevoked u' h' _ => if (u' =? u) && (h' =? hash) then None else cur
  | _ => cur
  end.

Definition issuer_in_log (log : list Event) (a : address) : bool :=
  fold_left (replay_issuer a) log false.

Definition revoker_in_log (log : list Event) (a : address) : bool :=
  fold_left (replay_revoker a) log false.

Definition document_in_log (log : list Event) (u : uint256) (hash : bytes32)
    : option string :=
  fold_left (replay_document u hash) log None.

(** The concrete run with its log. *)
Definition st_log : State * list Event :=
  run_log [(Initialize 102 103, O1);
           (AddAuthorizedIssuer 201, O1);
           (AddAuthorizedRevoker 301, O2);
           (StoreDocument 42 7 "cidA", I1);
           (StoreDocument 42 8 "cidB", O2);
           (RevokeDocument 42 7, R1);
           (AddAuthorizedIssuer 1, O1);
           (RemoveAuthorizedIssuer 201, O2)] deployed [].

(** A deployed contract nobody has initialized, called by address 5. *)
Definition E5 : Env := mkEnv 5 5.

(** A call relayed through a contract: sender 900, origin 101. *)
Definition Relayed : Env := mkEnv 900 101.

(** ** Executions with their storage writes

    [storeDocument] and [revokeDocument] once more, statement by statement
    as above, in a monad that also returns the storage after each write, in
    order, whether the call then commits or reverts.  This makes the states
    a call passes through visible. *)

Definition ExecW (A : Type) : Type :=
  State → Result (A * State * list Event) * list State.

(** A computation that writes nothing: reads, [require], [emit], checked
    arithmetic, operations on array values. *)
Definition readW {A} (m : Exec A) : ExecW A := λ st,
  match m st with
  | Ok (a, _, evs) => (Ok (a, st, evs), [])
  | Err e => (Err e, [])
  end.

(** A storage write. *)
Definition modifyW (f : State → State) : ExecW unit := λ st,
  (Ok (tt, f st, []), [f st]).

Definition bindW {A B} (m : ExecW A) (k : A → ExecW B) : ExecW B := λ st,
  match m st with
  | (Ok (a, st1, ev1), w1) =>
      match k a st1 with
      | (Ok (b, st2, ev2), w2) => (Ok (b, st2, ev1 ++ ev2), w1 ++ w2)
      | (Err e, w2) => (Err e, w1 ++ w2)
      end
  | (Err e, w1) => (Err e, w1)
  end.

Declare Scope execw_scope.
Delimit Scope execw_scope with W.
Notation "x <- m ;; k" := (bindW m (λ x, k))
  (at level 100, m at next level, right associativity) : execw_scope.
Notation "m ;; k" := (bindW m (λ _, k))
  (at level 100, right associativity) : execw_scope.

(** Modelled from the spec: the [nonReentrant] modifier of OpenZeppelin's
    [ReentrancyGuard], whose text is not part of the sources, as in
    [nonReentrant] above: the status word is tested, set, and cleared after
    the body. *)
Definition nonReentrantW {A} (body : ExecW A) : ExecW A :=
  (s <- readW (gets _status);;
   match s with
   | ENTERED => readW (throw ReentrancyError)
   | NOT_ENTERED =>
       modifyW (set_status ENTERED);;
       r <- body;;
       modifyW (set_status NOT_ENTERED);;
       readW (ret r)
   end)%W.

Definition storeDocumentW (userId : uint256) (hash : bytes32) (cid : string)
    (env : Env) : ExecW unit :=
  nonReentrantW (
    st <- readW (gets id);;
    readW (require (isIssuer st (msg_sender env) ||
                    (msg_sender env =? owner_slot st 0) ||
                    (msg_sender env =? owner_slot st 1) ||
                    (msg_sender env =? owner_slot st 2))
                   "Not authorized to store");;
    docs <- readW (gets (λ st, docs_of st userId));;
    readW (store_scan docs hash);;
    modifyW (λ st, set_userDocuments
       (<[userId := docs_of st userId ++ [mkDocument hash cid]]> (_userDocuments st)) st);;
    readW (emit (DocumentStored userId hash cid)))%W.

(** The revocation loop; the assignment [docs[i] = docs[docs.length - 1]]
    and [docs.pop()] are two writes. *)
Fixpoint revoke_scanW (userId : uint256) (hash : bytes32)
    (rest : list Document) (i : uint256) : ExecW unit :=
  match rest with
  | [] => readW (ret tt)
  | d :: rest' =>
      if sha256Hash d =? hash then
        (readW (emit (DocumentRevoked userId (sha256Hash d) (ipfsCID d)));;
         docs <- readW (gets (λ st, docs_of st userId));;
         lastIndex <- readW (checked_sub (array_length docs) 1);;
         lastDoc <- readW (array_read docs lastIndex);;
         docs1 <- readW (array_write docs i lastDoc);;
         modifyW (λ st, set_userDocuments (<[userId := docs1]> (_userDocuments st)) st);;
         docs2 <- readW (array_pop docs1);;
         modifyW (λ st, set_userDocuments (<[userId := docs2]> (_userDocuments st)) st))%W
      else revoke_scanW userId hash rest' (i + 1)
  end.

Definition revokeDocumentW (userId : uint256) (hash : bytes32) (env : Env)
    : ExecW unit :=
  nonReentrantW (
    st <- readW (gets id);;
    readW (require (isRevoker st (msg_sender env) ||
                    (msg_sender env =? owner_slot st 0) ||
                    (msg_sender env =? owner_slot st 1) ||
                    (msg_sender env =? owner_slot st 2))
                   "Not authorized to revoke");;
    docs <- readW (gets (λ st, docs_of st userId));;
    revoke_scanW userId hash docs 0)%W.

(** A state inside a guarded call: the status word is set, and a call of
    [storeDocument] or [revokeDocument] made there is rejected. *)
Definition inside_guard (s : State) : Prop :=
  _status s = ENTERED ∧
  ∀ c env, guarded c = true → dispatch c env s = Err ReentrancyError.

(** The writes of a guarded call started in [st]: the first one sets the
    status word of [st] and changes nothing else; every state written
    before the call ends is inside the guard; when the call succeeds its
    last write clears the word and is the state it returns. *)
Definition guard_window (st : State)
    (r : Result (unit * State * list Event) * list State) : Prop :=
  ∃ mid,
    hd_error mid = Some (set_status ENTERED st) ∧
    Forall inside_guard mid ∧
    match r.1 with
    | Ok (_, st', _) => r.2 = mid ++ [st'] ∧ _status st' = NOT_ENTERED
    | Err _ => r.2 = mid
    end.

(** A computation and the same computation with its writes recorded. *)
Definition erases {A} (mW : ExecW A) (m : Exec A) : Prop :=
  ∀ st, (mW st).1 = m st.

(** A computation that never lets a state with another status word than
    the one it started with be written or returned. *)
Definition keeps_status {A} (mW : ExecW A) : Prop :=
  ∀ st,
    Forall (λ s, _status s = _status st) (mW st).2 ∧
    ∀ a st' evs, (mW st).1 = Ok (a, st', evs) → _status st' = _status st.

(** A computation that returns the storage it was given. *)
Definition no_write {A} (m : Exec A) : Prop :=
  ∀ st a st' evs, m st = Ok (a, st', evs) → st' = st.

(** * Verification *)

(** ** Swap-and-pop on arrays *)

Section swap_remove.
Context {A : Type}.
Implicit Types (l : list A) (i j : nat).

Lemma removelast_take l : removelast l = take (pred (length l)) l.
Proof. apply removelast_firstn_len. Qed.

Lemma swap_remove_length i l : length (swap_remove i l) = pred (length l).
Proof.
  unfold swap_remove. destruct (last l) as [x|] eqn:Hl.
  - rewrite removelast_take, length_take, length_insert. lia.
  - apply last_None in Hl. by subst.
Qed.

Lemma swap_remove_lookup i l x j :
  last l = Some x → (i < length l)%nat →
  swap_remove i l !! j =
    if decide (j < pred (length l))%nat
    then (if decide (j = i) then Some x else l !! j)
    else None.
Proof.
  intros Hl Hi. unfold swap_remove. rewrite Hl, removelast_take, length_insert.
  case_decide as Hj.
  - rewrite lookup_take_lt by done. case_decide as Hji.
    + subst. by rewrite list_lookup_insert_eq.
    + by rewrite list_lookup_insert_ne.
  - apply lookup_take_ge. lia.
Qed.

Lemma elem_of_swap_remove i l y :
  (i < length l)%nat →
  y ∈ swap_remove i l ↔ ∃ j, j ≠ i ∧ l !! j = Some y.
Proof.
  intros Hi. destruct (last l) as [x|] eqn:Hl.
  2: { apply last_None in Hl. subst. simpl in Hi. lia. }
  pose proof Hl as Hlast. rewrite last_lookup in Hlast.
  rewrite list_elem_of_lookup. split.
  - intros [j Hj]. rewrite (swap_remove_lookup _ _ _ _ Hl Hi) in Hj.
    repeat case_decide; simplify_eq.
    + exists (pred (length l)). split; [lia | done].
    + by exists j.
  - intros (j & Hji & Hj). pose proof (lookup_lt_Some _ _ _ Hj) as Hlt.
    destruct (decide (j < pred (length l))%nat) as [Hs|Hs].
    + exists j. rewrite (swap_remove_lookup _ _ _ _ Hl Hi).
      rewrite decide_True by done. by rewrite decide_False.
    + assert (j = pred (length l)) as -> by lia. simplify_eq.
      exists i. rewrite (swap_remove_lookup _ _ _ _ Hl Hi).
      rewrite decide_True by lia. by rewrite decide_True.
Qed.

Lemma NoDup_swap_remove i l :
  (i < length l)%nat → NoDup l → NoDup (swap_remove i l).
Proof.
  intros Hi Hnd. destruct (last l) as [x|] eqn:Hl.
  2: { apply last_None in Hl. subst. simpl in Hi. lia. }
  pose proof Hl as Hlast. rewrite last_lookup in Hlast.
  rewrite NoDup_alt in Hnd. apply NoDup_alt. intros j k y Hj Hk.
  rewrite (swap_remove_lookup _ _ _ _ Hl Hi) in Hj.
  rewrite (swap_remove_lookup _ _ _ _ Hl Hi) in Hk.
  destruct (decide (j < pred (length l))%nat); [|done].
  destruct (decide (k < pred (length l))%nat); [|done].
  destruct (decide (j = i)), (decide (k = i)); simplify_eq; try done.
  - match goal with H : l !! _ = Some _ |- _ => pose proof (Hnd _ _ _ H Hlast) end. lia.
  - match goal with H : l !! _ = Some _ |- _ => pose proof (Hnd _ _ _ H Hlast) end. lia.
  - by eapply Hnd.
Qed.

Lemma swap_remove_fmap {B} (f : A → B) i l :
  f <$> swap_remove i l = swap_remove i (f <$> l).
Proof.
  unfold swap_remove. rewrite fmap_last. destruct (last l) as [x|]; [|done].
  change (f <$> Some x) with (Some (f x)). cbv beta iota.
  rewrite !removelast_firstn_len.
  by rewrite fmap_take, list_fmap_insert, !length_insert, length_fmap.
Qed.
End swap_remove.

(** ** Index-tracked membership *)

Section index_tracking.
Implicit Types (idx : gmap N N) (l : list N) (a b : N) (i j : nat).

Lemma index_of_insert idx a b n :
  index_of (<[a := n]> idx) b = if decide (a = b) then n else index_of idx b.
Proof. unfold index_of. rewrite lookup_insert. by case_decide. Qed.

Lemma index_of_delete idx a b :
  index_of (delete a idx) b = if decide (a = b) then 0 else index_of idx b.
Proof. unfold index_of. rewrite lookup_delete. by case_decide. Qed.

Lemma index_ok_empty : index_ok ∅ [].
Proof.
  split; [done|]. intros a i. unfold index_of. rewrite lookup_empty. simpl.
  split; [done | lia].
Qed.

Lemma index_ok_inj idx l a i j :
  index_ok idx l → l !! i = Some a → l !! j = Some a → i = j.
Proof.
  intros [_ Hok] Hi Hj. apply Hok in Hi, Hj. lia.
Qed.

Lemma index_ok_NoDup idx l : index_ok idx l → NoDup l.
Proof. intros Hok. apply NoDup_alt. intros i j a. by apply (index_ok_inj idx). Qed.

Lemma index_ok_elem_of idx l a :
  index_ok idx l → a ∈ l ↔ index_of idx a ≠ 0.
Proof.
  intros [_ Hok]. rewrite list_elem_of_lookup. split.
  - intros [i Hi]. apply Hok in Hi. lia.
  - intros Hne. exists (pred (N.to_nat (index_of idx a))). apply Hok. lia.
Qed.

Lemma index_ok_slot idx l a :
  index_ok idx l → a ∈ l →
  l !! pred (N.to_nat (index_of idx a)) = Some a.
Proof.
  intros Hok Ha. pose proof Hok as [_ Hiff].
  apply (index_ok_elem_of _ _ _ Hok) in Ha. apply Hiff. lia.
Qed.

Lemma index_ok_snoc idx l a :
  index_ok idx l → index_of idx a = 0 → array_length l + 1 ≤ UINT256_MAX →
  index_ok (<[a := array_length l + 1]> idx) (l ++ [a]).
Proof.
  intros [Hlen Hok] Ha Hmax. split; unfold array_length in *.
  { rewrite length_app. simpl. lia. }
  intros b i. rewrite index_of_insert, lookup_snoc_Some. case_decide as Hab.
  - subst b. split.
    + intros [[_ Hi] | [-> _]]; [|lia]. apply Hok in Hi. lia.
    + intros Hi. right. split; [lia | done].
  - rewrite <- Hok. split.
    + by intros [[_ Hi] | [_ ?]].
    + intros Hi. left. split; [by eapply lookup_lt_Some | done].
Qed.

Lemma index_ok_swap_remove idx l a i moved :
  index_ok idx l → l !! i = Some a → last l = Some moved →
  index_ok (delete a (<[moved := N.of_nat (S i)]> idx)) (swap_remove i l).
Proof.
  intros Hok Hi Hl. pose proof Hok as [Hlen Hiff].
  pose proof (lookup_lt_Some _ _ _ Hi) as Hlt.
  pose proof Hl as Hlast. rewrite last_lookup in Hlast.
  split; unfold array_length in *.
  { rewrite swap_remove_length. lia. }
  intros b j. rewrite (swap_remove_lookup _ _ _ _ Hl Hlt).
  rewrite index_of_delete, index_of_insert.
  destruct (decide (a = b)) as [<-|Hab].
  { split; [|lia]. repeat case_decide; try done; intros Hj; simplify_eq.
    - pose proof (index_ok_inj _ _ _ _ _ Hok Hi Hlast). lia.
    - by pose proof (index_ok_inj _ _ _ _ _ Hok Hi Hj). }
  destruct (decide (moved = b)) as [<-|Hmb].
  { split.
    - repeat case_decide; try done; intros Hj; simplify_eq; [done|].
      pose proof (index_ok_inj _ _ _ _ _ Hok Hj Hlast). lia.
    - intros Hj. assert (j = i) as -> by lia.
      assert (i ≠ pred (length l)) by (intros ->; simplify_eq).
      rewrite decide_True by lia. by rewrite decide_True. }
  rewrite <- Hiff. split.
  - repeat case_decide; try done. intros; simplify_eq.
  - intros Hj. pose proof (lookup_lt_Some _ _ _ Hj).
    assert (j ≠ pred (length l)) by (intros ->; simplify_eq).
    assert (j ≠ i) by (intros ->; simplify_eq).
    rewrite decide_True by lia. by rewrite decide_False.
Qed.

(** Adding an address. *)
Lemma add_member_absent idx l a :
  index_ok idx l → a ∉ l → array_length l + 1 ≤ UINT256_MAX →
  add_member a idx l = Ok (<[a := array_length l + 1]> idx, l ++ [a]).
Proof.
  intros Hok Ha Hmax. unfold add_member.
  assert (index_of idx a = 0) as Hz.
  { destruct (decide (index_of idx a = 0)); [done|].
    exfalso. apply Ha. by apply (index_ok_elem_of _ _ _ Hok). }
  rewrite Hz. simpl.
  assert ((array_length l =? 0) || negb (default 0 (l !! 0%nat) =? a) = true) as ->.
  { unfold array_length. destruct l as [|b l']; [done|]. simpl.
    destruct (N.eqb_spec b a) as [->|]; [|done].
    exfalso. apply Ha. left. }
  by rewrite (proj2 (N.leb_le _ _) Hmax).
Qed.

Lemma add_member_present idx l a :
  index_ok idx l → a ∈ l →
  add_member a idx l = Err (Revert "User already authorized").
Proof.
  intros Hok Ha. apply (index_ok_elem_of _ _ _ Hok) in Ha. unfold add_member.
  by rewrite (proj2 (N.eqb_neq _ _) Ha).
Qed.

Lemma add_member_Ok idx l a idx' l' :
  add_member a idx l = Ok (idx', l') →
  index_of idx a = 0 ∧ array_length l + 1 ≤ UINT256_MAX ∧
  idx' = <[a := array_length l + 1]> idx ∧ l' = l ++ [a].
Proof.
  unfold add_member. intros H.
  destruct (N.eqb_spec (index_of idx a) 0) as [Hz|]; [|done]. simpl in H.
  destruct (_ || _); [|done].
  destruct (N.leb_spec (array_length l + 1) UINT256_MAX); [|done].
  by simplify_eq.
Qed.

Lemma add_member_index_ok idx l a idx' l' :
  index_ok idx l → add_member a idx l = Ok (idx', l') → index_ok idx' l'.
Proof.
  intros Hok (Hz & Hmax & -> & ->)%add_member_Ok. by apply index_ok_snoc.
Qed.

(** Removing an address. *)
Lemma remove_member_absent idx l a :
  index_ok idx l → a ∉ l →
  remove_member a idx l = Err (Revert "User is not authorized").
Proof.
  intros Hok Ha. unfold remove_member.
  assert (index_of idx a = 0) as ->; [|done].
  destruct (decide (index_of idx a = 0)); [done|].
  exfalso. apply Ha. by apply (index_ok_elem_of _ _ _ Hok).
Qed.

Lemma remove_member_present idx l a i :
  index_ok idx l → l !! i = Some a →
  ∃ moved, last l = Some moved ∧
    remove_member a idx l =
      Ok (delete a (<[moved := N.of_nat (S i)]> idx), swap_remove i l).
Proof.
  intros Hok Hi. pose proof Hok as [Hlen Hiff].
  pose proof (lookup_lt_Some _ _ _ Hi) as Hlt.
  destruct (last l) as [moved|] eqn:Hl.
  2: { apply last_None in Hl. subst. simpl in Hlt. lia. }
  pose proof Hl as Hlast. rewrite last_lookup in Hlast.
  exists moved. split; [done|]. unfold remove_member, array_length in *.
  pose proof (proj1 (Hiff a i) Hi) as Hcur. rewrite Hcur.
  rewrite (proj2 (N.ltb_lt 0 _)) by lia.
  rewrite (proj2 (N.leb_le 1 _)) by lia.
  cbv zeta. destruct (N.eqb_spec (N.of_nat (S i) - 1) (N.of_nat (length l) - 1)) as [He|He].
  - assert (i = pred (length l)) as Hip by lia. rewrite <- Hip in Hlast.
    simplify_eq. rewrite delete_insert_eq. unfold swap_remove. rewrite Hl.
    by rewrite list_insert_id.
  - replace (N.to_nat (N.of_nat (length l) - 1)) with (pred (length l)) by lia.
    rewrite Hlast.
    rewrite (proj2 (N.ltb_lt _ _)) by lia.
    rewrite (proj2 (N.leb_le _ _)) by lia.
    replace (N.of_nat (S i) - 1 + 1) with (N.of_nat (S i)) by lia.
    replace (N.to_nat (N.of_nat (S i) - 1)) with i by lia.
    unfold swap_remove. by rewrite Hl.
Qed.

Lemma remove_member_index_ok idx l a idx' l' :
  index_ok idx l → remove_member a idx l = Ok (idx', l') → index_ok idx' l'.
Proof.
  intros Hok Hrm. destruct (decide (a ∈ l)) as [Ha|Ha].
  - apply list_elem_of_lookup in Ha as [i Hi].
    destruct (remove_member_present _ _ _ _ Hok Hi) as (moved & Hl & Heq).
    rewrite Heq in Hrm. simplify_eq. by apply index_ok_swap_remove.
  - by rewrite (remove_member_absent _ _ _ Hok Ha) in Hrm.
Qed.
End index_tracking.

(** ** What each external function computes *)

Ltac exec_unfold :=
  cbv [onlyOwners nonReentrant initializer __UUPSUpgradeable_init
       bind ret gets modify emit throw require
       checked_add checked_sub array_read array_write array_pop id].

(** Case analysis on the tests a computation makes, outermost first. *)
Ltac exec_case :=
  match goal with
  | |- context [match ?x with _ => _ end] =>
      lazymatch x with
      | context [match _ with _ => _ end] => fail
      | _ => destruct x eqn:?
      end
  end.

Ltac exec_cases := repeat (cbv beta iota; try done; exec_case).

Lemma addAuthorizedIssuer_eq a env st :
  addAuthorizedIssuer a env st =
    if isOwner st (msg_sender env) then
      match add_member a (issuerIndex st) (issuerList st) with
      | Ok (idx', l') =>
          Ok (tt, set_issuerList l' (set_issuerIndex idx' st), [IssuerAdded a])
      | Err e => Err e
      end
    else Err (Revert "Not an owner").
Proof.
  unfold addAuthorizedIssuer, add_member. exec_unfold. by exec_cases.
Qed.

Lemma addAuthorizedRevoker_eq a env st :
  addAuthorizedRevoker a env st =
    if isOwner st (msg_sender env) then
      match add_member a (revokerIndex st) (revokerList st) with
      | Ok (idx', l') =>
          Ok (tt, set_revokerList l' (set_revokerIndex idx' st), [RevokerAdded a])
      | Err e => Err e
      end
    else Err (Revert "Not an owner").
Proof.
  unfold addAuthorizedRevoker, add_member. exec_unfold. by exec_cases.
Qed.

(** The removal makes a few checks that cannot fail once the earlier ones
    passed (the subtraction [cur - 1] after [cur > 0], reading back the slot
    just written, popping an array of length at least one). *)
Ltac remove_eq :=
  unfold remove_member; exec_unfold;
  match goal with |- context [isOwner ?st ?a] => destruct (isOwner st a) end;
  [|done]; cbv beta iota zeta;
  match goal with |- context [0 <? ?c] => destruct (N.ltb_spec 0 c) end;
  [|done]; cbv beta iota;
  match goal with |- context [1 <=? index_of ?m ?a] =>
    rewrite (proj2 (N.leb_le 1 (index_of m a))) by lia
  end;
  cbv beta iota;
  match goal with |- context [1 <=? array_length ?l] =>
    destruct (N.leb_spec 1 (array_length l)); [|done]
  end;
  cbv beta iota;
  match goal with |- context [negb (?i =? ?j)] => destruct (N.eqb_spec i j) end;
  cbn [negb]; cbv beta iota;
  [ match goal with H : 1 <= array_length ?l |- _ => by destruct l eqn:? end
  | match goal with |- context [?l !! ?k] => destruct (l !! k) end;
    [|done]; cbv beta iota;
    match goal with |- context [?i <? array_length ?l] =>
      destruct (N.ltb_spec i (array_length l)); [|done]
    end;
    cbv beta iota; cbn [issuerList revokerList set_issuerList set_revokerList];
    rewrite list_lookup_insert_eq by (unfold array_length in *; lia);
    cbv beta iota;
    match goal with |- context [?n <=? UINT256_MAX] =>
      destruct (n <=? UINT256_MAX); [|done]
    end;
    cbv beta iota;
    cbn [issuerList revokerList set_issuerList set_revokerList
         set_issuerIndex set_revokerIndex];
    match goal with |- context [<[?k := ?m]> ?l] =>
      let Hins := fresh "Hins" in
      destruct (<[k := m]> l) eqn:Hins; [|done];
      apply (f_equal length) in Hins; rewrite length_insert in Hins;
      unfold array_length in *; simpl in Hins; lia
    end ].

Lemma removeAuthorizedIssuer_eq a env st :
  removeAuthorizedIssuer a env st =
    if isOwner st (msg_sender env) then
      match remove_member a (issuerIndex st) (issuerList st) with
      | Ok (idx', l') =>
          Ok (tt, set_issuerIndex idx' (set_issuerList l' st), [IssuerRemoved a])
      | Err e => Err e
      end
    else Err (Revert "Not an owner").
Proof. unfold removeAuthorizedIssuer. remove_eq. Qed.

Lemma removeAuthorizedRevoker_eq a env st :
  removeAuthorizedRevoker a env st =
    if isOwner st (msg_sender env) then
      match remove_member a (revokerIndex st) (revokerList st) with
      | Ok (idx', l') =>
          Ok (tt, set_revokerIndex idx' (set_revokerList l' st), [RevokerRemoved a])
      | Err e => Err e
      end
    else Err (Revert "Not an owner").
Proof. unfold removeAuthorizedRevoker. remove_eq. Qed.

Lemma initialize_eq o2 o3 env st :
  initialize o2 o3 env st =
    if _initialized st then Err AlreadyInitialized
    else if msg_sender env =? tx_origin env then
      Ok (tt,
          set_owners (<[2%nat := o3]> (<[1%nat := o2]>
                        (<[0%nat := msg_sender env]> (owners st))))
                     (set_initialized true st),
          [])
    else Err (Revert "Only the deployer can initialize").
Proof. unfold initialize. exec_unfold. by exec_cases. Qed.

Lemma _authorizeUpgrade_eq impl env st :
  _authorizeUpgrade impl env st =
    if isOwner st (msg_sender env) then Ok (tt, st, [])
    else Err (Revert "Not an owner").
Proof. unfold _authorizeUpgrade. exec_unfold. by exec_cases. Qed.

Lemma has_hash_elem_of hash docs :
  has_hash hash docs = true ↔ hash ∈ sha256Hash <$> docs.
Proof.
  unfold has_hash. rewrite existsb_exists, list_elem_of_fmap. split.
  - intros (d & Hd & Heq%N.eqb_eq). exists d. split; [done | by apply list_elem_of_In].
  - intros (d & -> & Hd). exists d. split; [by apply list_elem_of_In | apply N.eqb_refl].
Qed.

Lemma store_scan_eq docs hash st :
  store_scan docs hash st =
    if has_hash hash docs then Err (Revert "Document already stored")
    else Ok (tt, st, []).
Proof.
  induction docs as [|d docs IH]; [done|].
  simpl. exec_unfold. destruct (sha256Hash d =? hash); [done|].
  simpl. rewrite IH. by destruct (has_hash hash docs).
Qed.

Lemma storeDocument_eq u hash cid env st :
  storeDocument u hash cid env st =
    match _status st with
    | ENTERED => Err ReentrancyError
    | NOT_ENTERED =>
        if canStore st (msg_sender env) then
          if has_hash hash (docs_of st u)
          then Err (Revert "Document already stored")
          else Ok (tt,
                   set_status NOT_ENTERED
                     (set_userDocuments
                        (<[u := docs_of st u ++ [mkDocument hash cid]]>
                           (_userDocuments st)) st),
                   [DocumentStored u hash cid])
        else Err (Revert "Not authorized to store")
    end.
Proof.
  unfold storeDocument, canStore, isOwner. rewrite !orb_assoc.
  unfold nonReentrant, bind at 1, gets at 1.
  destruct (_status st); [|done].
  unfold bind at 1, modify at 1. unfold bind at 1.
  unfold bind at 1, gets at 1, id.
  change (isIssuer (set_status ENTERED st)) with (isIssuer st).
  change (owner_slot (set_status ENTERED st)) with (owner_slot st).
  unfold bind at 1. unfold require.
  destruct (_ || _ || _ || _); [|done].
  unfold ret at 1. unfold bind at 1, gets at 1.
  change (docs_of (set_status ENTERED st) u) with (docs_of st u).
  unfold bind at 1. rewrite store_scan_eq.
  by destruct (has_hash hash (docs_of st u)).
Qed.

(** The revocation loop finds the first document with the given hash, if
    any, and swap-removes it. *)
Lemma revoke_scan_eq u hash st pre rest :
  docs_of st u = pre ++ rest →
  revoke_scan u hash rest (N.of_nat (length pre)) st =
    match list_find (λ d, sha256Hash d = hash) rest with
    | None => Ok (tt, st, [])
    | Some (j, d) =>
        Ok (tt,
            set_userDocuments
              (<[u := swap_remove (length pre + j) (docs_of st u)]>
                 (_userDocuments st)) st,
            [DocumentRevoked u (sha256Hash d) (ipfsCID d)])
    end.
Proof.
  revert pre. induction rest as [|d rest IH]; intros pre Hdocs; [done|].
  cbn [revoke_scan list_find]. destruct (N.eqb_spec (sha256Hash d) hash) as [Hd|Hd].
  - rewrite decide_True by done. exec_unfold.
    assert (length (docs_of st u) = S (length pre + length rest)) as Hlen.
    { rewrite Hdocs, length_app. simpl. lia. }
    destruct (last (docs_of st u)) as [lastDoc|] eqn:Hlast.
    2: { apply last_None in Hlast. rewrite Hlast in Hlen. done. }
    pose proof Hlast as Hlk. rewrite last_lookup in Hlk.
    unfold array_length.
    rewrite (proj2 (N.leb_le 1 (N.of_nat (length (docs_of st u))))) by lia.
    replace (N.to_nat (N.of_nat (length (docs_of st u)) - 1))
      with (pred (length (docs_of st u))) by lia.
    rewrite Hlk.
    rewrite (proj2 (N.ltb_lt (N.of_nat (length pre))
                             (N.of_nat (length (docs_of st u))))) by lia.
    rewrite Nat2N.id, Nat.add_0_r.
    destruct (<[length pre := lastDoc]> (docs_of st u)) as [|x xs] eqn:Hins.
    { apply (f_equal length) in Hins. rewrite length_insert in Hins. simpl in Hins. lia. }
    rewrite <- Hins. unfold swap_remove. by rewrite Hlast.
  - rewrite decide_False by done.
    replace (N.of_nat (length pre) + 1) with (N.of_nat (length (pre ++ [d])))
      by (rewrite length_app; simpl; lia).
    rewrite IH by (by rewrite <- app_assoc).
    destruct (list_find _ rest) as [[j d']|]; [|done]. simpl.
    rewrite length_app. simpl.
    by replace (length pre + 1 + j)%nat with (length pre + S j)%nat by lia.
Qed.

Lemma revokeDocument_eq u hash env st :
  revokeDocument u hash env st =
    match _status st with
    | ENTERED => Err ReentrancyError
    | NOT_ENTERED =>
        if canRevoke st (msg_sender env) then
          match list_find (λ d, sha256Hash d = hash) (docs_of st u) with
          | None => Ok (tt, set_status NOT_ENTERED st, [])
          | Some (j, d) =>
              Ok (tt,
                  set_status NOT_ENTERED
                    (set_userDocuments
                       (<[u := swap_remove j (docs_of st u)]> (_userDocuments st))
                       st),
                  [DocumentRevoked u (sha256Hash d) (ipfsCID d)])
          end
        else Err (Revert "Not authorized to revoke")
    end.
Proof.
  unfold revokeDocument, canRevoke, isOwner. rewrite !orb_assoc.
  unfold nonReentrant, bind at 1, gets at 1.
  destruct (_status st); [|done].
  unfold bind at 1, modify at 1. unfold bind at 1.
  unfold bind at 1, gets at 1, id.
  change (isRevoker (set_status ENTERED st)) with (isRevoker st).
  change (owner_slot (set_status ENTERED st)) with (owner_slot st).
  unfold bind at 1. unfold require.
  destruct (_ || _ || _ || _); [|done].
  unfold ret at 1. unfold bind at 1, gets at 1.
  change (docs_of (set_status ENTERED st) u) with (docs_of st u).
  pose proof (revoke_scan_eq u hash (set_status ENTERED st) [] (docs_of st u) eq_refl) as Hscan.
  simpl length in Hscan. change (N.of_nat 0) with 0 in Hscan. rewrite Hscan.
  by destruct (list_find _ (docs_of st u)) as [[j d]|].
Qed.

(** ** Successful calls, case by case *)

Lemma dispatch_Ok c env st st' evs :
  dispatch c env st = Ok (tt, st', evs) ↔ step_spec c env st st' evs.
Proof.
  destruct c as [o2 o3|impl|a|a|a|a|u h cid|u h]; simpl.
  - rewrite initialize_eq. destruct (_initialized st); [split; [done | by intros []]|].
    destruct (N.eqb_spec (msg_sender env) (tx_origin env)).
    + split; [by intros [= <- <-] | by intros (_ & _ & -> & ->)].
    + split; [done | by intros (_ & ? & _)].
  - rewrite _authorizeUpgrade_eq. destruct (isOwner st _).
    + split; [by intros [= <- <-] | by intros (_ & -> & ->)].
    + split; [done | by intros []].
  - rewrite addAuthorizedIssuer_eq. destruct (isOwner st _); [|split; [done | by intros []]].
    destruct (add_member _ _ _) as [[idx' l']|].
    + split; [intros [= <- <-]; split; [done|]; by exists idx', l'
             | by intros (_ & ? & ? & [= <- <-] & -> & ->)].
    + split; [done | by intros (_ & ? & ? & ? & _)].
  - rewrite removeAuthorizedIssuer_eq. destruct (isOwner st _); [|split; [done | by intros []]].
    destruct (remove_member _ _ _) as [[idx' l']|].
    + split; [intros [= <- <-]; split; [done|]; by exists idx', l'
             | by intros (_ & ? & ? & [= <- <-] & -> & ->)].
    + split; [done | by intros (_ & ? & ? & ? & _)].
  - rewrite addAuthorizedRevoker_eq. destruct (isOwner st _); [|split; [done | by intros []]].
    destruct (add_member _ _ _) as [[idx' l']|].
    + split; [intros [= <- <-]; split; [done|]; by exists idx', l'
             | by intros (_ & ? & ? & [= <- <-] & -> & ->)].
    + split; [done | by intros (_ & ? & ? & ? & _)].
  - rewrite removeAuthorizedRevoker_eq. destruct (isOwner st _); [|split; [done | by intros []]].
    destruct (remove_member _ _ _) as [[idx' l']|].
    + split; [intros [= <- <-]; split; [done|]; by exists idx', l'
             | by intros (_ & ? & ? & [= <- <-] & -> & ->)].
    + split; [done | by intros (_ & ? & ? & ? & _)].
  - rewrite storeDocument_eq. destruct (_status st); [|split; [done | by intros []]].
    destruct (canStore st _); [|split; [done | by intros (_ & ? & _)]].
    destruct (has_hash _ _).
    + split; [done | by intros (_ & _ & ? & _)].
    + split; [by intros [= <- <-] | by intros (_ & _ & _ & -> & ->)].
  - rewrite revokeDocument_eq. destruct (_status st); [|split; [done | by intros []]].
    destruct (canRevoke st _); [|split; [done | by intros (_ & ? & _)]].
    destruct (list_find _ _) as [[j d]|].
    + split; [by intros [= <- <-] | by intros (_ & _ & -> & ->)].
    + split; [by intros [= <- <-] | by intros (_ & _ & -> & ->)].
Qed.

(** ** Invariants *)

Lemma docs_of_insert g u ds st u' :
  docs_of (set_status g (set_userDocuments (<[u := ds]> (_userDocuments st)) st)) u' =
    if decide (u = u') then ds else docs_of st u'.
Proof.
  unfold docs_of. simpl. rewrite lookup_insert. by case_decide.
Qed.

Lemma list_find_hash_Some hash docs j d :
  list_find (λ d, sha256Hash d = hash) docs = Some (j, d) →
  docs !! j = Some d ∧ sha256Hash d = hash ∧
  ∀ k d', docs !! k = Some d' → (k < j)%nat → sha256Hash d' ≠ hash.
Proof. by rewrite list_find_Some. Qed.

Lemma list_find_hash_None hash docs :
  list_find (λ d, sha256Hash d = hash) docs = None ↔ hash ∉ sha256Hash <$> docs.
Proof.
  rewrite list_find_None, Forall_forall, list_elem_of_fmap. split.
  - intros Hall (d & -> & Hd). by apply (Hall d).
  - intros Hno d Hd Heq. apply Hno. by exists d.
Qed.

Lemma dispatch_docs_unique c env st st' evs :
  docs_unique st → dispatch c env st = Ok (tt, st', evs) → docs_unique st'.
Proof.
  intros Hu Hstep%dispatch_Ok u'.
  destruct c as [o2 o3|impl|a|a|a|a|u h cid|u h]; simpl in Hstep.
  - destruct Hstep as (_ & _ & -> & _). apply Hu.
  - destruct Hstep as (_ & -> & _). apply Hu.
  - destruct Hstep as (_ & idx' & l' & _ & -> & _). apply Hu.
  - destruct Hstep as (_ & idx' & l' & _ & -> & _). apply Hu.
  - destruct Hstep as (_ & idx' & l' & _ & -> & _). apply Hu.
  - destruct Hstep as (_ & idx' & l' & _ & -> & _). apply Hu.
  - destruct Hstep as (_ & _ & Hno & -> & _). rewrite docs_of_insert.
    case_decide; [subst u'|apply Hu].
    rewrite fmap_app. apply NoDup_app. split; [apply Hu|]. split.
    + intros x Hx ->%list_elem_of_singleton.
      apply has_hash_elem_of in Hx. simpl in Hx. congruence.
    + apply NoDup_singleton.
  - destruct Hstep as (_ & _ & Hfind).
    destruct (list_find _ _) as [[j d]|] eqn:Hf; destruct Hfind as [-> _].
    + rewrite docs_of_insert. case_decide; [subst u'|apply Hu].
      apply list_find_hash_Some in Hf as (Hj & _ & _).
      rewrite swap_remove_fmap. apply NoDup_swap_remove; [|apply Hu].
      rewrite length_fmap. by eapply lookup_lt_Some.
    + apply Hu.
Qed.

Lemma dispatch_invariant c env st st' evs :
  invariant st → dispatch c env st = Ok (tt, st', evs) → invariant st'.
Proof.
  intros [Hs Ho Hi Hr Hd] Hstep.
  pose proof (dispatch_docs_unique _ _ _ _ _ Hd Hstep) as Hd'.
  apply dispatch_Ok in Hstep.
  destruct c as [o2 o3|impl|a|a|a|a|u h cid|u h]; simpl in Hstep.
  - destruct Hstep as (_ & _ & -> & _). split; try done.
    simpl. by rewrite !length_insert.
  - by destruct Hstep as (_ & -> & _).
  - destruct Hstep as (_ & idx' & l' & Hadd & -> & _). split; try done.
    exact (add_member_index_ok _ _ _ _ _ Hi Hadd).
  - destruct Hstep as (_ & idx' & l' & Hrm & -> & _). split; try done.
    exact (remove_member_index_ok _ _ _ _ _ Hi Hrm).
  - destruct Hstep as (_ & idx' & l' & Hadd & -> & _). split; try done.
    exact (add_member_index_ok _ _ _ _ _ Hr Hadd).
  - destruct Hstep as (_ & idx' & l' & Hrm & -> & _). split; try done.
    exact (remove_member_index_ok _ _ _ _ _ Hr Hrm).
  - destruct Hstep as (_ & _ & _ & -> & _). by split.
  - destruct Hstep as (_ & _ & Hfind).
    destruct (list_find _ _) as [[j d]|]; destruct Hfind as [-> _]; by split.
Qed.

Lemma invariant_deployed : invariant deployed.
Proof.
  split; try done; try apply index_ok_empty.
  intros u. unfold docs_of. simpl. rewrite lookup_empty. simpl. apply NoDup_nil_2.
Qed.

Lemma reachable_invariant st : reachable st → invariant st.
Proof.
  induction 1 as [|st c env st' evs _ IH Hstep];
    [apply invariant_deployed | by eapply dispatch_invariant].
Qed.

Lemma reachable_run cs st : reachable st → reachable (run cs st).
Proof.
  revert st. induction cs as [|[c env] cs IH]; intros st Hst; [done|].
  simpl. apply IH. unfold transact.
  destruct (dispatch c env st) as [[[[] st'] evs]|e] eqn:Hd; [|done].
  simpl. by eapply reachable_call.
Qed.

(** ** Consequences of the invariants *)

Lemma set_status_id st : set_status (_status st) st = st.
Proof. by destruct st. Qed.

Lemma hash_lookup_inj docs i j di dj :
  NoDup (sha256Hash <$> docs) →
  docs !! i = Some di → docs !! j = Some dj →
  sha256Hash di = sha256Hash dj → i = j.
Proof.
  intros Hnd Hi Hj Heq. rewrite NoDup_alt in Hnd.
  apply (Hnd i j (sha256Hash di)); rewrite list_lookup_fmap.
  - by rewrite Hi.
  - by rewrite Hj, Heq.
Qed.

(** After the swap-and-pop of a document the collection holds the other
    documents, and none with the removed hash. *)
Lemma swap_remove_docs docs j d :
  NoDup (sha256Hash <$> docs) → docs !! j = Some d →
  (sha256Hash d ∉ sha256Hash <$> swap_remove j docs) ∧
  (∀ d', d' ∈ swap_remove j docs ↔ d' ∈ docs ∧ d' ≠ d) ∧
  S (length (swap_remove j docs)) = length docs.
Proof.
  intros Hnd Hj. pose proof (lookup_lt_Some _ _ _ Hj) as Hlt.
  assert (∀ d', d' ∈ swap_remove j docs ↔ d' ∈ docs ∧ d' ≠ d) as Hmem.
  { intros d'. rewrite (elem_of_swap_remove _ _ _ Hlt), list_elem_of_lookup. split.
    - intros (k & Hkj & Hk). split; [by exists k|]. intros ->.
      by pose proof (hash_lookup_inj _ _ _ _ _ Hnd Hk Hj eq_refl).
    - intros [[k Hk] Hne]. exists k. split; [|done]. intros ->. congruence. }
  split; [|split; [done|]].
  - rewrite list_elem_of_fmap. intros (d' & Heq & Hd').
    apply Hmem in Hd' as [Hd' Hne]. apply list_elem_of_lookup in Hd' as [k Hk].
    pose proof (hash_lookup_inj _ _ _ _ _ Hnd Hk Hj (eq_sym Heq)) as ->. congruence.
  - rewrite swap_remove_length. lia.
Qed.

(** With three owner slots, [isOwner] is membership in [owners]. *)
Lemma isOwner_elem_of st a :
  length (owners st) = 3%nat → isOwner st a = true ↔ a ∈ owners st.
Proof.
  unfold isOwner, owner_slot. intros Hlen.
  destruct (owners st) as [|o0 [|o1 [|o2 [|? ?]]]]; try done. simpl.
  rewrite !orb_true_iff, !N.eqb_eq, !elem_of_cons, elem_of_nil. tauto.
Qed.

Lemma isOwner_false st a :
  length (owners st) = 3%nat → a ∉ owners st → isOwner st a = false.
Proof.
  intros Hlen Ha. destruct (isOwner st a) eqn:Ho; [|done].
  by apply (isOwner_elem_of _ _ Hlen) in Ho.
Qed.

Lemma index_of_zero idx l a : index_ok idx l → a ∉ l → (0 <? index_of idx a) = false.
Proof.
  intros Hok Ha. apply N.ltb_ge.
  destruct (decide (index_of idx a = 0)) as [->|Hne]; [done|].
  by apply (index_ok_elem_of _ _ _ Hok) in Hne.
Qed.

Lemma index_of_pos idx l a : index_ok idx l → a ∈ l → (0 <? index_of idx a) = true.
Proof.
  intros Hok Ha. apply N.ltb_lt. apply (index_ok_elem_of _ _ _ Hok) in Ha. lia.
Qed.

Lemma remove_member_swap_removed idx l addr :
  index_ok idx l → addr ∈ l →
  ∃ idx' l', remove_member addr idx l = Ok (idx', l') ∧
    index_ok idx' l' ∧ swap_removed addr l idx' l'.
Proof.
  intros Hok [i Hi]%list_elem_of_lookup.
  destruct (remove_member_present _ _ _ _ Hok Hi) as (moved & Hl & Hrm).
  pose proof (index_ok_swap_remove _ _ _ _ _ Hok Hi Hl) as Hok'.
  pose proof (lookup_lt_Some _ _ _ Hi) as Hlt.
  eexists _, _. split; [exact Hrm|]. split; [exact Hok'|].
  exists i, moved. split; [done|]. split; [done|]. split.
  { unfold swap_remove. by rewrite Hl. }
  split.
  { intros Hne. assert (swap_remove i l !! i = Some moved) as Hm.
    { rewrite (swap_remove_lookup _ _ _ _ Hl Hlt).
      rewrite decide_True by lia. by rewrite decide_True. }
    split; [done|]. apply Hok' in Hm. lia. }
  split; [apply swap_remove_length|]. split.
  { rewrite index_of_delete. by rewrite decide_True. }
  split.
  - intros m. rewrite (elem_of_swap_remove _ _ _ Hlt), list_elem_of_lookup. split.
    + intros (k & Hki & Hk). split; [by exists k|]. intros ->.
      by pose proof (index_ok_inj _ _ _ _ _ Hok Hk Hi).
    + intros [[k Hk] Hne]. exists k. split; [|done]. intros ->. congruence.
  - intros m Hm. by eapply index_of_pos.
Qed.

(** ** The concrete run is reachable *)

Lemma reachable_st_setup : reachable st_setup.
Proof. apply reachable_run, reachable_deployed. Qed.

Lemma reachable_st_stored : reachable st_stored.
Proof. apply reachable_run, reachable_st_setup. Qed.

Lemma reachable_st_revoked : reachable st_revoked.
Proof. apply reachable_run, reachable_st_stored. Qed.

Lemma reachable_st_members : reachable st_members.
Proof. apply reachable_run, reachable_st_stored. Qed.

Example scenario_counts :
  getDocumentCount st_stored 42 = 1 ∧
  getDocuments st_stored 42 = ([7], ["cidA"]) ∧
  getDocumentCount st_revoked 42 = 0 ∧
  (transact (StoreDocument 42 8 "cidB") X st_revoked).2
    = Some (Revert "Not authorized to store").
Proof. by vm_compute. Qed.

Example scenario_swap_remove :
  getAllAuthorizedIssuers st_members = [201; 1; 2; 3] ∧
  getAllAuthorizedIssuers (run [(RemoveAuthorizedIssuer 1, O2)] st_members)
    = [201; 3; 2].
Proof. by vm_compute. Qed.

(** ** The claims *)

(** C1: in every reachable state no two records of one user's collection
    share a hash; every successful call keeps it so; hence two positions
    holding the same hash are the same position, and after a revocation of
    a hash no record with that hash is left (the first match was the only
    one). *)
Theorem C1_unique_hashes st :
  reachable st →
  docs_unique st ∧
  (∀ c env st' evs, dispatch c env st = Ok (tt, st', evs) → docs_unique st') ∧
  (∀ u i j di dj,
     docs_of st u !! i = Some di → docs_of st u !! j = Some dj →
     sha256Hash di = sha256Hash dj → i = j) ∧
  (∀ u hash env st' evs,
     revokeDocument u hash env st = Ok (tt, st', evs) →
     hash ∉ sha256Hash <$> docs_of st' u).
Proof.
  intros Hr. pose proof (inv_docs _ (reachable_invariant _ Hr)) as Hu.
  split; [done|]. split; [|split].
  - intros c env st' evs. by apply dispatch_docs_unique.
  - intros u i j di dj. apply hash_lookup_inj, Hu.
  - intros u hash env st' evs Hrev.
    apply (dispatch_Ok (RevokeDocument u hash)) in Hrev as (_ & _ & Hfind).
    destruct (list_find _ _) as [[j d]|] eqn:Hf; destruct Hfind as [-> _].
    + rewrite docs_of_insert, decide_True by done.
      apply list_find_hash_Some in Hf as (Hj & <- & _).
      by apply swap_remove_docs.
    + by apply list_find_hash_None in Hf.
Qed.

Lemma C1_unique_hashes_witness :
  docs_unique st_stored ∧
  7 ∉ sha256Hash <$> docs_of st_revoked 42.
Proof.
  pose proof (C1_unique_hashes st_stored reachable_st_stored) as (Hu & _ & _ & Hrev).
  split; [exact Hu|].
  apply (Hrev 42 7 R1 st_revoked [DocumentRevoked 42 7 "cidA"]).
  by vm_compute.
Defined.

(** C2: after a successful [storeDocument] the pair (hash, reference) is
    listed by [getDocuments] at a common position; a successful
    [revokeDocument] of that hash, right away or in any later reachable
    state that still lists the hash, leaves no record with that hash and
    makes [getDocumentCount] exactly one less. *)
Theorem C2_store_revoke_roundtrip st u hash cid env st1 evs1 :
  reachable st →
  storeDocument u hash cid env st = Ok (tt, st1, evs1) →
  (∃ i, (getDocuments st1 u).1 !! i = Some hash ∧
        (getDocuments st1 u).2 !! i = Some cid) ∧
  (∀ env' st2 evs2,
     revokeDocument u hash env' st1 = Ok (tt, st2, evs2) →
     (hash ∉ (getDocuments st2 u).1) ∧
     getDocumentCount st2 u + 1 = getDocumentCount st1 u) ∧
  (∀ st1' env' st2 evs2,
     reachable st1' → hash ∈ (getDocuments st1' u).1 →
     revokeDocument u hash env' st1' = Ok (tt, st2, evs2) →
     (hash ∉ (getDocuments st2 u).1) ∧
     getDocumentCount st2 u + 1 = getDocumentCount st1' u).
Proof.
  intros Hr Hstore.
  assert (∀ st1' env' st2 evs2,
     reachable st1' → hash ∈ (getDocuments st1' u).1 →
     revokeDocument u hash env' st1' = Ok (tt, st2, evs2) →
     (hash ∉ (getDocuments st2 u).1) ∧
     getDocumentCount st2 u + 1 = getDocumentCount st1' u) as Hrevoke.
  { intros st1' env' st2 evs2 Hr1 Hin Hrev.
    pose proof (inv_docs _ (reachable_invariant _ Hr1) u) as Hnd.
    apply (dispatch_Ok (RevokeDocument u hash)) in Hrev as (_ & _ & Hfind).
    unfold getDocuments, getDocumentCount, array_length in *. simpl in *.
    destruct (list_find _ _) as [[j d]|] eqn:Hf; destruct Hfind as [-> _].
    - rewrite docs_of_insert, decide_True by done.
      apply list_find_hash_Some in Hf as (Hj & <- & _).
      destruct (swap_remove_docs _ _ _ Hnd Hj) as (Hgone & _ & Hlen).
      split; [done | lia].
    - by apply list_find_hash_None in Hf. }
  assert (reachable st1) as Hr1.
  { by apply (reachable_call st (StoreDocument u hash cid) env st1 evs1). }
  assert (docs_of st1 u = docs_of st u ++ [mkDocument hash cid]) as Hdocs.
  { apply (dispatch_Ok (StoreDocument u hash cid)) in Hstore as (_ & _ & _ & -> & _).
    by rewrite docs_of_insert, decide_True. }
  assert (∃ i, (getDocuments st1 u).1 !! i = Some hash ∧
               (getDocuments st1 u).2 !! i = Some cid) as Hlisted.
  { exists (length (docs_of st u)). unfold getDocuments. simpl.
    rewrite Hdocs, !list_lookup_fmap.
    by rewrite lookup_app_r, Nat.sub_diag by lia. }
  split; [done|]. split; [|done].
  intros env' st2 evs2. apply Hrevoke; [done|].
  destruct Hlisted as (i & Hi & _). apply list_elem_of_lookup. by exists i.
Qed.

Lemma C2_store_revoke_roundtrip_witness :
  (getDocuments st_stored 42).1 = [7] ∧
  getDocumentCount st_revoked 42 + 1 = getDocumentCount st_stored 42.
Proof.
  pose proof (C2_store_revoke_roundtrip st_setup 42 7 "cidA" I1 st_stored
                [DocumentStored 42 7 "cidA"] reachable_st_setup)
    as Hthm.
  destruct Hthm as (_ & Hrev & _); [by vm_compute|].
  split; [by vm_compute|].
  apply (Hrev R1 st_revoked [DocumentRevoked 42 7 "cidA"]). by vm_compute.
Defined.

(** C3: when a record with the hash is already in the user's collection, a
    [storeDocument] for that user and hash by an authorized caller, with
    any reference, fails with 'Document already stored'; the call is
    reverted, so the storage (hence the collection's length and contents)
    is unchanged and no event is logged. *)
Theorem C3_duplicate_rejected st u hash cid env :
  reachable st →
  canStore st (msg_sender env) = true →
  hash ∈ sha256Hash <$> docs_of st u →
  storeDocument u hash cid env st = Err (Revert "Document already stored") ∧
  transact (StoreDocument u hash cid) env st
    = (st, [], Some (Revert "Document already stored")).
Proof.
  intros Hr Hauth Hin.
  assert (storeDocument u hash cid env st = Err (Revert "Document already stored")) as Herr.
  { rewrite storeDocument_eq, (inv_status _ (reachable_invariant _ Hr)), Hauth.
    by rewrite (proj2 (has_hash_elem_of _ _) Hin). }
  split; [done|]. unfold transact. simpl. by rewrite Herr.
Qed.

Lemma C3_duplicate_rejected_witness :
  storeDocument 42 7 "cidB" O2 st_stored = Err (Revert "Document already stored").
Proof.
  refine (proj1 (C3_duplicate_rejected st_stored 42 7 "cidB" O2
                   reachable_st_stored _ _)).
  - by vm_compute.
  - apply (list_elem_of_here 7 []).
Defined.

(** C4: in a reachable state, an owner's [removeAuthorizedIssuer] of a
    listed address succeeds, logs [IssuerRemoved] and is a swap-remove: the
    last element is written over the removed slot (and gets that slot as
    its index entry when it was not the removed one), the array loses its
    last slot, the removed address's index entry is cleared, the remaining
    members are the former ones minus the address and each still passes the
    issuer test.  For an address that is not listed the call fails with
    'User is not authorized'.  [removeAuthorizedRevoker] likewise. *)
Theorem C4_swap_remove st env addr :
  reachable st →
  isOwner st (msg_sender env) = true →
  (addr ∈ issuerList st →
     ∃ st', removeAuthorizedIssuer addr env st = Ok (tt, st', [IssuerRemoved addr]) ∧
       swap_removed addr (issuerList st) (issuerIndex st') (issuerList st') ∧
       ∀ m, m ∈ issuerList st' → isIssuer st' m = true) ∧
  (addr ∉ issuerList st →
     removeAuthorizedIssuer addr env st = Err (Revert "User is not authorized")) ∧
  (addr ∈ revokerList st →
     ∃ st', removeAuthorizedRevoker addr env st = Ok (tt, st', [RevokerRemoved addr]) ∧
       swap_removed addr (revokerList st) (revokerIndex st') (revokerList st') ∧
       ∀ m, m ∈ revokerList st' → isRevoker st' m = true) ∧
  (addr ∉ revokerList st →
     removeAuthorizedRevoker addr env st = Err (Revert "User is not authorized")).
Proof.
  intros Hr Hown. destruct (reachable_invariant _ Hr) as [_ _ Hi Hv _].
  rewrite removeAuthorizedIssuer_eq, removeAuthorizedRevoker_eq, Hown.
  split; [|split; [|split]].
  - intros Ha.
    destruct (remove_member_swap_removed _ _ _ Hi Ha) as (idx' & l' & -> & _ & Hsw).
    eexists. split; [done|]. split; [exact Hsw|].
    by destruct Hsw as (i & moved & _ & _ & _ & _ & _ & _ & _ & Hpos).
  - intros Ha. by rewrite (remove_member_absent _ _ _ Hi Ha).
  - intros Ha.
    destruct (remove_member_swap_removed _ _ _ Hv Ha) as (idx' & l' & -> & _ & Hsw).
    eexists. split; [done|]. split; [exact Hsw|].
    by destruct Hsw as (i & moved & _ & _ & _ & _ & _ & _ & _ & Hpos).
  - intros Ha. by rewrite (remove_member_absent _ _ _ Hv Ha).
Qed.

Lemma C4_swap_remove_witness :
  ∃ st', removeAuthorizedIssuer 1 O2 st_members = Ok (tt, st', [IssuerRemoved 1]) ∧
    swap_removed 1 (issuerList st_members) (issuerIndex st') (issuerList st') ∧
    ∀ m, m ∈ issuerList st' → isIssuer st' m = true.
Proof.
  refine (proj1 (C4_swap_remove st_members O2 1 reachable_st_members _) _).
  - by vm_compute.
  - change (1 ∈ [201; 1; 2; 3]). apply (bool_decide_unpack _). by vm_compute.
Defined.

Lemma index_ok_tracks idx l : index_ok idx l → tracks idx l.
Proof.
  intros Hok. split.
  - intros a. by apply index_ok_elem_of.
  - intros a i. destruct Hok as [_ Hok]. rewrite Hok. lia.
Qed.

(** C5: in every reachable state, for issuers and for revokers, an address
    occurs in the array exactly when its index entry is nonzero, and the
    entry of a member is the 1-based number of the slot holding it; the
    four membership functions (like every other call) lead to a state where
    this holds again. *)
Theorem C5_index_tracks_list st :
  reachable st →
  tracks (issuerIndex st) (issuerList st) ∧
  tracks (revokerIndex st) (revokerList st) ∧
  (∀ a, a ∈ issuerList st ↔ isIssuer st a = true) ∧
  (∀ a, a ∈ revokerList st ↔ isRevoker st a = true) ∧
  (∀ c env st' evs,
     dispatch c env st = Ok (tt, st', evs) →
     tracks (issuerIndex st') (issuerList st') ∧
     tracks (revokerIndex st') (revokerList st')).
Proof.
  intros Hr. pose proof (reachable_invariant _ Hr) as Hinv.
  destruct Hinv as [_ _ Hi Hv _].
  split; [by apply index_ok_tracks|]. split; [by apply index_ok_tracks|].
  split; [|split].
  - intros a. unfold isIssuer. rewrite (index_ok_elem_of _ _ _ Hi), N.ltb_lt. lia.
  - intros a. unfold isRevoker. rewrite (index_ok_elem_of _ _ _ Hv), N.ltb_lt. lia.
  - intros c env st' evs Hstep.
    assert (invariant st') as [_ _ Hi' Hv' _].
    { eapply dispatch_invariant; [|exact Hstep]. by apply reachable_invariant. }
    split; by apply index_ok_tracks.
Qed.

Lemma C5_index_tracks_list_witness :
  tracks (issuerIndex st_members) (issuerList st_members) ∧
  index_of (issuerIndex st_members) 2 = 3.
Proof.
  pose proof (C5_index_tracks_list st_members reachable_st_members)
    as (Ht & _ & _ & _ & _).
  split; [exact Ht|].
  destruct Ht as [_ Hslot]. by apply (Hslot 2 2%nat).
Defined.

(** C6: in a reachable state a caller that is neither in [owners] nor in
    the issuer array gets 'Not authorized to store' from [storeDocument],
    and a caller that is neither in [owners] nor in the revoker array gets
    'Not authorized to revoke' from [revokeDocument], whether or not the
    hash is stored; the call is reverted, so the whole storage is as before
    and nothing is logged. *)
Theorem C6_unauthorized st env :
  reachable st →
  msg_sender env ∉ owners st →
  (msg_sender env ∉ issuerList st →
     ∀ u hash cid,
       storeDocument u hash cid env st = Err (Revert "Not authorized to store") ∧
       transact (StoreDocument u hash cid) env st
         = (st, [], Some (Revert "Not authorized to store"))) ∧
  (msg_sender env ∉ revokerList st →
     ∀ u hash,
       revokeDocument u hash env st = Err (Revert "Not authorized to revoke") ∧
       transact (RevokeDocument u hash) env st
         = (st, [], Some (Revert "Not authorized to revoke"))).
Proof.
  intros Hr Hown. destruct (reachable_invariant _ Hr) as [Hs Ho Hi Hv _].
  pose proof (isOwner_false _ _ Ho Hown) as Hno.
  split.
  - intros Hiss u hash cid.
    assert (storeDocument u hash cid env st = Err (Revert "Not authorized to store")) as Herr.
    { rewrite storeDocument_eq, Hs. unfold canStore, isIssuer.
      by rewrite (index_of_zero _ _ _ Hi Hiss), Hno. }
    split; [done|]. unfold transact. simpl. by rewrite Herr.
  - intros Hrev u hash.
    assert (revokeDocument u hash env st = Err (Revert "Not authorized to revoke")) as Herr.
    { rewrite revokeDocument_eq, Hs. unfold canRevoke, isRevoker.
      by rewrite (index_of_zero _ _ _ Hv Hrev), Hno. }
    split; [done|]. unfold transact. simpl. by rewrite Herr.
Qed.

Lemma C6_unauthorized_witness :
  transact (StoreDocument 42 8 "cidB") X st_stored
    = (st_stored, [], Some (Revert "Not authorized to store")) ∧
  transact (RevokeDocument 42 9) X st_stored
    = (st_stored, [], Some (Revert "Not authorized to revoke")).
Proof.
  assert (msg_sender X ∉ owners st_stored) as Hown.
  { change (999 ∉ [101; 102; 103]). apply (bool_decide_unpack _). by vm_compute. }
  pose proof (C6_unauthorized st_stored X reachable_st_stored Hown) as [Hst Hrv].
  split.
  - apply Hst. change (999 ∉ [201]). apply (bool_decide_unpack _). by vm_compute.
  - apply Hrv. change (999 ∉ [301]). apply (bool_decide_unpack _). by vm_compute.
Defined.

(** C7: in a reachable state, for an authorized caller, [revokeDocument] of
    a hash that no record of the user carries succeeds, leaves the storage
    exactly as it was and logs nothing; when a record carries the hash the
    call logs [DocumentRevoked] with that record's hash and reference and
    removes the record: the other records stay, none with the hash is left
    and the count drops by one. *)
Theorem C7_revoke st u hash env :
  reachable st →
  canRevoke st (msg_sender env) = true →
  (hash ∉ sha256Hash <$> docs_of st u →
     revokeDocument u hash env st = Ok (tt, st, []) ∧
     transact (RevokeDocument u hash) env st = (st, [], None)) ∧
  (∀ d, d ∈ docs_of st u → sha256Hash d = hash →
     ∃ st',
       revokeDocument u hash env st
         = Ok (tt, st', [DocumentRevoked u hash (ipfsCID d)]) ∧
       (∀ d', d' ∈ docs_of st' u ↔ d' ∈ docs_of st u ∧ d' ≠ d) ∧
       (hash ∉ sha256Hash <$> docs_of st' u) ∧
       getDocumentCount st' u + 1 = getDocumentCount st u).
Proof.
  intros Hr Hauth. destruct (reachable_invariant _ Hr) as [Hs _ _ _ Hu].
  rewrite revokeDocument_eq, Hs, Hauth. unfold transact. simpl.
  rewrite revokeDocument_eq, Hs, Hauth. split.
  - intros Hno. apply list_find_hash_None in Hno. rewrite Hno.
    by rewrite <- Hs, set_status_id.
  - intros d Hd Hhash.
    destruct (list_find _ (docs_of st u)) as [[j d0]|] eqn:Hf.
    2: { apply list_find_hash_None in Hf. exfalso. apply Hf.
         apply list_elem_of_fmap. by exists d. }
    apply list_find_hash_Some in Hf as (Hj & Hh0 & _).
    apply list_elem_of_lookup in Hd as [k Hk].
    assert (k = j) as -> by (eapply hash_lookup_inj; [apply Hu|done..|congruence]).
    assert (d0 = d) as -> by congruence.
    destruct (swap_remove_docs _ _ _ (Hu u) Hj) as (Hgone & Hmem & Hlen).
    eexists. split; [by rewrite Hhash|].
    rewrite docs_of_insert, decide_True by done.
    split; [done|]. split; [by rewrite <- Hhash|].
    unfold getDocumentCount, array_length.
    rewrite docs_of_insert, decide_True by done. lia.
Qed.

Lemma C7_revoke_witness :
  revokeDocument 42 9 R1 st_stored = Ok (tt, st_stored, []) ∧
  ∃ st', revokeDocument 42 7 R1 st_stored
           = Ok (tt, st', [DocumentRevoked 42 7 "cidA"]) ∧
         getDocumentCount st' 42 + 1 = getDocumentCount st_stored 42.
Proof.
  assert (canRevoke st_stored (msg_sender R1) = true) as Hauth by by vm_compute.
  pose proof (C7_revoke st_stored 42 9 R1 reachable_st_stored Hauth) as [Hmiss _].
  pose proof (C7_revoke st_stored 42 7 R1 reachable_st_stored Hauth) as [_ Hhit].
  split.
  - apply Hmiss. change (9 ∉ [7]). apply (bool_decide_unpack _). by vm_compute.
  - destruct (Hhit (mkDocument 7 "cidA")) as (st' & Hrev & _ & _ & Hcount).
    + change (mkDocument 7 "cidA" ∈ [mkDocument 7 "cidA"]). apply list_elem_of_here.
    + done.
    + by exists st'.
Defined.

Lemma dispatch_owners c env st st' evs :
  _initialized st = true →
  dispatch c env st = Ok (tt, st', evs) →
  owners st' = owners st ∧ _initialized st' = true.
Proof.
  intros Hinit Hstep%dispatch_Ok.
  destruct c as [o2 o3|impl|a|a|a|a|u h cid|u h]; simpl in Hstep.
  - destruct Hstep as (Hfalse & _). congruence.
  - by destruct Hstep as (_ & -> & _).
  - by destruct Hstep as (_ & idx' & l' & _ & -> & _).
  - by destruct Hstep as (_ & idx' & l' & _ & -> & _).
  - by destruct Hstep as (_ & idx' & l' & _ & -> & _).
  - by destruct Hstep as (_ & idx' & l' & _ & -> & _).
  - by destruct Hstep as (_ & _ & _ & -> & _).
  - destruct Hstep as (_ & _ & Hfind).
    by destruct (list_find _ _) as [[j d]|]; destruct Hfind as [-> _].
Qed.

Lemma reaches_owners st st' :
  _initialized st = true → reaches st st' →
  owners st' = owners st ∧ _initialized st' = true.
Proof.
  intros Hinit. induction 1 as [|st1 c env st2 evs _ [IHo IHi] Hstep]; [done|].
  destruct (dispatch_owners _ _ _ _ _ IHi Hstep) as [Ho Hi]. split; congruence.
Qed.

(** C8, as stated, fails: [initialize] does not compare the three
    addresses, so an initialized contract can hold the same address in all
    three owner slots. *)
Lemma C8_owners_not_distinct :
  reachable st_same_owner ∧
  _initialized st_same_owner = true ∧
  owners st_same_owner = [7; 7; 7] ∧
  ¬ NoDup (owners st_same_owner).
Proof.
  split; [apply reachable_run, reachable_deployed|].
  split; [done|]. split; [done|].
  change (¬ NoDup [7; 7; 7]). intros Hnd. apply NoDup_cons in Hnd as [Hnot _].
  apply Hnot, list_elem_of_here.
Qed.

(** C8, amended: [owners] always has exactly three slots; a successful
    [initialize] happens on an uninitialized contract and fills them with
    the caller and the two supplied addresses, in this order (equal
    addresses are accepted); once initialized, every further [initialize]
    fails with [AlreadyInitialized] and no sequence of successful calls
    changes [owners]. *)
Theorem C8_owner_slots st :
  reachable st →
  length (owners st) = 3%nat ∧
  (∀ o2 o3 env st' evs,
     initialize o2 o3 env st = Ok (tt, st', evs) →
     _initialized st = false ∧ _initialized st' = true ∧
     owners st' = [msg_sender env; o2; o3]) ∧
  (_initialized st = true →
     ∀ st', reaches st st' →
       owners st' = owners st ∧
       ∀ o2 o3 env, initialize o2 o3 env st' = Err AlreadyInitialized).
Proof.
  intros Hr. destruct (reachable_invariant _ Hr) as [_ Ho _ _ _].
  split; [done|]. split.
  - intros o2 o3 env st' evs Hinit.
    apply (dispatch_Ok (Initialize o2 o3)) in Hinit as (Hfalse & _ & -> & _).
    split; [done|]. split; [done|]. simpl.
    by destruct (owners st) as [|x0 [|x1 [|x2 [|? ?]]]].
  - intros Hinit st' Hreach.
    destruct (reaches_owners _ _ Hinit Hreach) as [Hsame Hinit'].
    split; [done|]. intros o2 o3 env. by rewrite initialize_eq, Hinit'.
Qed.

Lemma C8_owner_slots_witness :
  owners st_stored = owners st_setup ∧
  initialize 5 6 X st_stored = Err AlreadyInitialized.
Proof.
  pose proof (C8_owner_slots st_setup reachable_st_setup) as (_ & _ & Hfix).
  destruct (Hfix eq_refl st_stored) as [Ho Hinit].
  - apply (reaches_call _ st_setup (StoreDocument 42 7 "cidA") I1 st_stored
             [DocumentStored 42 7 "cidA"]); [apply reaches_refl | by vm_compute].
  - split; [exact Ho | apply Hinit].
Defined.

Lemma guarded_entered c env st :
  guarded c = true → _status st = ENTERED →
  dispatch c env st = Err ReentrancyError.
Proof.
  intros Hg Hs. destruct c; try done; simpl.
  - by rewrite storeDocument_eq, Hs.
  - by rewrite revokeDocument_eq, Hs.
Qed.

(** The computations handed to [readW] write nothing. *)
Lemma no_write_ret {A} (a : A) : no_write (ret a).
Proof. intros st a' st' evs H. unfold ret in H. by simplify_eq. Qed.

Lemma no_write_throw {A} e : no_write (@throw A e).
Proof. by intros st a st' evs. Qed.

Lemma no_write_gets {A} (f : State → A) : no_write (gets f).
Proof. intros st a st' evs H. unfold gets in H. by simplify_eq. Qed.

Lemma no_write_emit ev : no_write (emit ev).
Proof. intros st a st' evs H. unfold emit in H. by simplify_eq. Qed.

Lemma no_write_require b reason : no_write (require b reason).
Proof. destruct b; [apply no_write_ret | apply no_write_throw]. Qed.

Lemma no_write_checked_sub a b : no_write (checked_sub a b).
Proof.
  unfold checked_sub. destruct (b <=? a); [apply no_write_ret | apply no_write_throw].
Qed.

Lemma no_write_array_read {A} (l : list A) i : no_write (array_read l i).
Proof.
  unfold array_read. destruct (l !! _); [apply no_write_ret | apply no_write_throw].
Qed.

Lemma no_write_array_write {A} (l : list A) i x : no_write (array_write l i x).
Proof.
  unfold array_write.
  destruct (i <? array_length l); [apply no_write_ret | apply no_write_throw].
Qed.

Lemma no_write_array_pop {A} (l : list A) : no_write (array_pop l).
Proof. destruct l; [apply no_write_throw | apply no_write_ret]. Qed.

Lemma no_write_store_scan docs hash : no_write (store_scan docs hash).
Proof.
  induction docs as [|d docs IH]; [apply no_write_ret|].
  intros st a st' evs. simpl. unfold bind, require.
  destruct (negb _); [|done]. simpl.
  destruct (store_scan docs hash st) as [[[b s2] ev2]|] eqn:Hs; [|done].
  intros H. simplify_eq. by eapply IH.
Qed.

Create HintDb no_write.
#[local] Hint Resolve no_write_ret no_write_throw no_write_gets no_write_emit
  no_write_require no_write_checked_sub no_write_array_read
  no_write_array_write no_write_array_pop no_write_store_scan : no_write.

(** Forgetting the recorded writes gives back the plain computation. *)
Lemma erases_read {A} (m : Exec A) : no_write m → erases (readW m) m.
Proof.
  intros Hm st. unfold readW.
  destruct (m st) as [[[a st'] evs]|e] eqn:Hst; [|done].
  simpl. by rewrite (Hm _ _ _ _ Hst).
Qed.

Lemma erases_modify f : erases (modifyW f) (modify f).
Proof. done. Qed.

Lemma erases_bind {A B} (mW : ExecW A) (m : Exec A)
    (kW : A → ExecW B) (k : A → Exec B) :
  erases mW m → (∀ a, erases (kW a) (k a)) → erases (bindW mW kW) (bind m k).
Proof.
  intros Hm Hk st. unfold bindW, bind. rewrite <- (Hm st).
  destruct (mW st) as [[[[a st1] ev1]|e] w1]; [|done]. simpl.
  rewrite <- (Hk a st1). by destruct (kW a st1) as [[[[b st2] ev2]|e] w2].
Qed.

Ltac erase_steps :=
  first
    [ apply erases_modify
    | apply erases_read; solve [auto with no_write]
    | apply erases_bind; [erase_steps | intros ?; erase_steps]
    | idtac ].

Lemma erases_nonReentrant {A} (bodyW : ExecW A) (body : Exec A) :
  erases bodyW body → erases (nonReentrantW bodyW) (nonReentrant body).
Proof.
  intros Hb. unfold nonReentrantW, nonReentrant.
  apply erases_bind; [erase_steps|]. intros [|]; erase_steps. exact Hb.
Qed.

Lemma erases_storeDocument u hash cid env :
  erases (storeDocumentW u hash cid env) (storeDocument u hash cid env).
Proof.
  unfold storeDocumentW, storeDocument. apply erases_nonReentrant. erase_steps.
Qed.

(** Writing the overwritten array and then the popped one leaves the
    storage that writing the popped array alone leaves. *)
Lemma erases_overwrite_pop u (docs1 : list Document) :
  erases
    (modifyW (λ st, set_userDocuments (<[u := docs1]> (_userDocuments st)) st);;
     docs2 <- readW (array_pop docs1);;
     modifyW (λ st, set_userDocuments (<[u := docs2]> (_userDocuments st)) st))%W
    (docs2 <- array_pop docs1;;
     modify (λ st, set_userDocuments (<[u := docs2]> (_userDocuments st)) st)).
Proof.
  intros st. unfold bindW, bind, modifyW, modify, readW.
  destruct docs1 as [|d docs1]; [done|].
  cbn [array_pop ret fst]. unfold set_userDocuments. cbn.
  by rewrite insert_insert_eq.
Qed.

Lemma erases_revoke_scan u hash rest i :
  erases (revoke_scanW u hash rest i) (revoke_scan u hash rest i).
Proof.
  revert i. induction rest as [|d rest IH]; intros i; [erase_steps|].
  cbn [revoke_scanW revoke_scan]. destruct (sha256Hash d =? hash); [|apply IH].
  erase_steps. apply erases_overwrite_pop.
Qed.

Lemma erases_revokeDocument u hash env :
  erases (revokeDocumentW u hash env) (revokeDocument u hash env).
Proof.
  unfold revokeDocumentW, revokeDocument. apply erases_nonReentrant.
  erase_steps. apply erases_revoke_scan.
Qed.

(** The bodies of the two functions never touch the status word. *)
Lemma keeps_read {A} (m : Exec A) : keeps_status (readW m).
Proof.
  intros st. unfold readW. destruct (m st) as [[[a st'] evs]|e]; simpl.
  - split; [done|]. intros a' st2 evs' H. by simplify_eq.
  - by split.
Qed.

Lemma keeps_modify f :
  (∀ st, _status (f st) = _status st) → keeps_status (modifyW f).
Proof.
  intros Hf st. unfold modifyW. simpl. split.
  - by apply Forall_singleton.
  - intros a st' evs H. by simplify_eq.
Qed.

Lemma keeps_bind {A B} (mW : ExecW A) (kW : A → ExecW B) :
  keeps_status mW → (∀ a, keeps_status (kW a)) → keeps_status (bindW mW kW).
Proof.
  intros Hm Hk st. unfold bindW. destruct (Hm st) as [Hw1 Hr1].
  destruct (mW st) as [[[[a st1] ev1]|e] w1]; simpl in *; [|by split].
  pose proof (Hr1 _ _ _ eq_refl) as Hs1. destruct (Hk a st1) as [Hw2 Hr2].
  rewrite Hs1 in Hw2.
  destruct (kW a st1) as [[[[b st2] ev2]|e] w2]; simpl in *.
  - split; [by apply Forall_app|].
    intros b' st' evs H. simplify_eq. rewrite <- Hs1. by eapply Hr2.
  - split; [by apply Forall_app | done].
Qed.

Ltac keep_steps :=
  first
    [ apply keeps_read
    | apply keeps_modify; intros ?; reflexivity
    | apply keeps_bind; [keep_steps | intros ?; keep_steps]
    | idtac ].

Lemma keeps_revoke_scan u hash rest i : keeps_status (revoke_scanW u hash rest i).
Proof.
  revert i. induction rest as [|d rest IH]; intros i; [keep_steps|].
  cbn [revoke_scanW]. destruct (sha256Hash d =? hash); [keep_steps | apply IH].
Qed.

(** What the guard does around a body that leaves the status word alone. *)
Lemma nonReentrantW_window (body : ExecW unit) st :
  keeps_status body → _status st = NOT_ENTERED →
  guard_window st (nonReentrantW body st).
Proof.
  intros Hk Hs. unfold nonReentrantW, bindW, readW, gets, modifyW, ret.
  rewrite Hs. cbv beta iota.
  destruct (Hk (set_status ENTERED st)) as [Hw Hr].
  assert (∀ s, _status s = ENTERED → inside_guard s) as Hin.
  { intros s Hst. split; [done|]. intros c env Hg. by apply guarded_entered. }
  destruct (body (set_status ENTERED st)) as [[[[[] st'] evs]|e] w]; simpl in *.
  - exists (set_status ENTERED st :: w). split; [done|]. split.
    + apply Forall_cons. split; [by apply Hin|].
      eapply Forall_impl; [exact Hw|]. intros s. apply Hin.
    + split; [|done]. by rewrite app_nil_r.
  - exists (set_status ENTERED st :: w). split; [done|]. split; [|done].
    apply Forall_cons. split; [by apply Hin|].
    eapply Forall_impl; [exact Hw|]. intros s. apply Hin.
Qed.

(** C9: [storeDocument] and [revokeDocument] run under one status word.
    Started in a reachable state, each of them first writes the state with
    the word set and nothing else changed; every state it writes before it
    ends has the word set, and a [storeDocument] or [revokeDocument] called
    in such a state, for any user, fails with [ReentrancyError]; when the
    call succeeds its last write clears the word, and when it fails the
    transaction is reverted, so after the call the word is clear either
    way.  A call made while the word is set is reverted: it leaves the
    state it found and logs nothing.  (The functions with recorded writes
    return what [storeDocument] and [revokeDocument] return.) *)
Theorem C9_reentrancy_guard st :
  reachable st →
  (∀ u hash cid env,
     (storeDocumentW u hash cid env st).1 = storeDocument u hash cid env st ∧
     guard_window st (storeDocumentW u hash cid env st)) ∧
  (∀ u hash env,
     (revokeDocumentW u hash env st).1 = revokeDocument u hash env st ∧
     guard_window st (revokeDocumentW u hash env st)) ∧
  (∀ c env, guarded c = true →
     _status (transact c env st).1.1 = NOT_ENTERED) ∧
  (∀ st_in c env,
     _status st_in = ENTERED → guarded c = true →
     dispatch c env st_in = Err ReentrancyError ∧
     transact c env st_in = (st_in, [], Some ReentrancyError)).
Proof.
  intros Hr. pose proof (inv_status _ (reachable_invariant _ Hr)) as Hs.
  split; [|split; [|split]].
  - intros u hash cid env. split; [apply erases_storeDocument|].
    apply nonReentrantW_window; [keep_steps | done].
  - intros u hash env. split; [apply erases_revokeDocument|].
    apply nonReentrantW_window; [keep_steps; apply keeps_revoke_scan | done].
  - intros c env Hg. unfold transact.
    destruct (dispatch c env st) as [[[[] st'] evs]|e] eqn:Hd; [|done].
    simpl. eapply inv_status, dispatch_invariant; [|exact Hd].
    by apply reachable_invariant.
  - intros st_in c env Hin Hg.
    pose proof (guarded_entered c env st_in Hg Hin) as Herr.
    split; [done|]. unfold transact. by rewrite Herr.
Qed.

Lemma C9_reentrancy_guard_witness :
  (storeDocumentW 42 8 "cidB" I1 st_stored).1
    = storeDocument 42 8 "cidB" I1 st_stored ∧
  guard_window st_stored (storeDocumentW 42 8 "cidB" I1 st_stored) ∧
  guard_window st_stored (revokeDocumentW 42 7 R1 st_stored) ∧
  transact (RevokeDocument 42 7) R1 (set_status ENTERED st_stored)
    = (set_status ENTERED st_stored, [], Some ReentrancyError).
Proof.
  pose proof (C9_reentrancy_guard st_stored reachable_st_stored)
    as (Hstore & Hrevoke & _ & Hnested).
  split; [apply Hstore|]. split; [apply Hstore|]. split; [apply Hrevoke|].
  by apply Hnested.
Defined.

Example recorded_writes :
  _status <$> (storeDocumentW 42 8 "cidB" I1 st_stored).2
    = [ENTERED; ENTERED; NOT_ENTERED] ∧
  _status <$> (revokeDocumentW 42 7 R1 st_stored).2
    = [ENTERED; ENTERED; ENTERED; NOT_ENTERED] ∧
  _status <$> (storeDocumentW 42 7 "cidB" X st_stored).2 = [ENTERED] ∧
  (storeDocumentW 42 7 "cidB" X st_stored).1
    = Err (Revert "Not authorized to store").
Proof. by vm_compute. Qed.

(** C10: a successful [storeDocument] or [revokeDocument] for a user leaves
    [owners], both index mappings, both arrays and every other user's
    collection as they were; a successful add or remove of an issuer leaves
    [owners], the revoker mapping and array and all collections as they
    were; a successful add or remove of a revoker leaves [owners], the
    issuer mapping and array and all collections as they were.
    ([initialize] touches only [owners]; the upgrade gate touches nothing.) *)
Theorem C10_frame c env st st' evs :
  dispatch c env st = Ok (tt, st', evs) →
  match c with
  | StoreDocument u _ _ | RevokeDocument u _ =>
      owners st' = owners st ∧
      issuerIndex st' = issuerIndex st ∧ issuerList st' = issuerList st ∧
      revokerIndex st' = revokerIndex st ∧ revokerList st' = revokerList st ∧
      ∀ u', u' ≠ u →
        _userDocuments st' !! u' = _userDocuments st !! u' ∧
        docs_of st' u' = docs_of st u'
  | AddAuthorizedIssuer _ | RemoveAuthorizedIssuer _ =>
      owners st' = owners st ∧
      revokerIndex st' = revokerIndex st ∧ revokerList st' = revokerList st ∧
      _userDocuments st' = _userDocuments st
  | AddAuthorizedRevoker _ | RemoveAuthorizedRevoker _ =>
      owners st' = owners st ∧
      issuerIndex st' = issuerIndex st ∧ issuerList st' = issuerList st ∧
      _userDocuments st' = _userDocuments st
  | Initialize _ _ =>
      issuerIndex st' = issuerIndex st ∧ issuerList st' = issuerList st ∧
      revokerIndex st' = revokerIndex st ∧ revokerList st' = revokerList st ∧
      _userDocuments st' = _userDocuments st
  | AuthorizeUpgrade _ => st' = st
  end.
Proof.
  intros Hstep%dispatch_Ok.
  destruct c as [o2 o3|impl|a|a|a|a|u h cid|u h]; simpl in Hstep.
  - by destruct Hstep as (_ & _ & -> & _).
  - by destruct Hstep as (_ & -> & _).
  - by destruct Hstep as (_ & idx' & l' & _ & -> & _).
  - by destruct Hstep as (_ & idx' & l' & _ & -> & _).
  - by destruct Hstep as (_ & idx' & l' & _ & -> & _).
  - by destruct Hstep as (_ & idx' & l' & _ & -> & _).
  - destruct Hstep as (_ & _ & _ & -> & _). repeat (split; [done|]).
    intros u' Hne. rewrite docs_of_insert, decide_False by done.
    split; [|done]. simpl. by rewrite lookup_insert_ne.
  - destruct Hstep as (_ & _ & Hfind).
    destruct (list_find _ _) as [[j d]|]; destruct Hfind as [-> _];
      repeat (split; [done|]); [|done].
    intros u' Hne. rewrite docs_of_insert, decide_False by done.
    split; [|done]. simpl. by rewrite lookup_insert_ne.
Qed.

Lemma C10_frame_witness :
  owners st_stored = owners st_setup ∧
  issuerIndex st_stored = issuerIndex st_setup ∧
  issuerList st_stored = issuerList st_setup ∧
  revokerIndex st_stored = revokerIndex st_setup ∧
  revokerList st_stored = revokerList st_setup ∧
  ∀ u', u' ≠ 42 →
    _userDocuments st_stored !! u' = _userDocuments st_setup !! u' ∧
    docs_of st_stored u' = docs_of st_setup u'.
Proof.
  apply (C10_frame (StoreDocument 42 7 "cidA") I1 st_setup st_stored
           [DocumentStored 42 7 "cidA"]).
  by vm_compute.
Defined.

(** * Further properties of the contract *)

(** ** Adding members *)

Lemma add_member_fresh idx l a :
  index_ok idx l → a ∉ l → array_length l < UINT256_MAX →
  add_member a idx l = Ok (<[a := array_length l + 1]> idx, l ++ [a]) ∧
  index_ok (<[a := array_length l + 1]> idx) (l ++ [a]) ∧
  index_of (<[a := array_length l + 1]> idx) a = array_length l + 1 ∧
  ∀ b, b ≠ a →
    index_of (<[a := array_length l + 1]> idx) b = index_of idx b.
Proof.
  intros Hok Ha Hlt.
  assert (array_length l + 1 ≤ UINT256_MAX) as Hmax by lia.
  pose proof (add_member_absent _ _ _ Hok Ha Hmax) as Hadd.
  split; [done|]. split; [by eapply add_member_index_ok|].
  split.
  - by rewrite index_of_insert, decide_True.
  - intros b Hb. by rewrite index_of_insert, decide_False.
Qed.

(** X1: in a reachable state, an owner adding an address that is not yet
    listed (the array being below its maximal length) succeeds, logs the
    Added event, puts the address in the last slot with the new length as
    its index entry, makes it pass the membership test and leaves every
    other index entry as it was.  Issuers and revokers alike. *)
Theorem X1_add_member st env a :
  reachable st →
  isOwner st (msg_sender env) = true →
  (a ∉ issuerList st → array_length (issuerList st) < UINT256_MAX →
     ∃ st', addAuthorizedIssuer a env st = Ok (tt, st', [IssuerAdded a]) ∧
       getAllAuthorizedIssuers st' = getAllAuthorizedIssuers st ++ [a] ∧
       index_of (issuerIndex st') a = array_length (issuerList st) + 1 ∧
       isIssuer st' a = true ∧
       ∀ b, b ≠ a → index_of (issuerIndex st') b = index_of (issuerIndex st) b) ∧
  (a ∉ revokerList st → array_length (revokerList st) < UINT256_MAX →
     ∃ st', addAuthorizedRevoker a env st = Ok (tt, st', [RevokerAdded a]) ∧
       getAllAuthorizedRevokers st' = getAllAuthorizedRevokers st ++ [a] ∧
       index_of (revokerIndex st') a = array_length (revokerList st) + 1 ∧
       isRevoker st' a = true ∧
       ∀ b, b ≠ a → index_of (revokerIndex st') b = index_of (revokerIndex st) b).
Proof.
  intros Hr Hown. destruct (reachable_invariant _ Hr) as [_ _ Hi Hv _].
  rewrite addAuthorizedIssuer_eq, addAuthorizedRevoker_eq, Hown. split.
  - intros Ha Hlt.
    destruct (add_member_fresh _ _ _ Hi Ha Hlt) as (-> & _ & Hidx & Hrest).
    eexists. split; [done|]. split; [done|]. split; [done|]. split; [|done].
    unfold isIssuer. simpl. rewrite Hidx. apply N.ltb_lt. lia.
  - intros Ha Hlt.
    destruct (add_member_fresh _ _ _ Hv Ha Hlt) as (-> & _ & Hidx & Hrest).
    eexists. split; [done|]. split; [done|]. split; [done|]. split; [|done].
    unfold isRevoker. simpl. rewrite Hidx. apply N.ltb_lt. lia.
Qed.

Lemma X1_add_member_witness :
  ∃ st', addAuthorizedIssuer 5 O2 st_members = Ok (tt, st', [IssuerAdded 5]) ∧
    getAllAuthorizedIssuers st' = [201; 1; 2; 3; 5] ∧
    index_of (issuerIndex st') 5 = 5.
Proof.
  destruct (X1_add_member st_members O2 5 reachable_st_members) as [Hiss _];
    [by vm_compute|].
  destruct Hiss as (st' & Hadd & Hl & Hidx & _).
  - change (5 ∉ [201; 1; 2; 3]). apply (bool_decide_unpack _). by vm_compute.
  - by vm_compute.
  - exists st'. split; [exact Hadd|]. split.
    + rewrite Hl. by vm_compute.
    + rewrite Hidx. by vm_compute.
Defined.

(** X2: in a reachable state, an owner adding an address that is already
    listed gets 'User already authorized' and the call is reverted; so the
    same add repeated right after a successful one fails.  Issuers and
    revokers alike. *)
Theorem X2_add_listed st env a :
  reachable st →
  isOwner st (msg_sender env) = true →
  (a ∈ issuerList st →
     transact (AddAuthorizedIssuer a) env st
       = (st, [], Some (Revert "User already authorized"))) ∧
  (a ∈ revokerList st →
     transact (AddAuthorizedRevoker a) env st
       = (st, [], Some (Revert "User already authorized"))) ∧
  (∀ st' evs, addAuthorizedIssuer a env st = Ok (tt, st', evs) →
     addAuthorizedIssuer a env st' = Err (Revert "User already authorized")) ∧
  (∀ st' evs, addAuthorizedRevoker a env st = Ok (tt, st', evs) →
     addAuthorizedRevoker a env st' = Err (Revert "User already authorized")).
Proof.
  intros Hr Hown. destruct (reachable_invariant _ Hr) as [_ _ Hi Hv _].
  unfold transact. simpl.
  rewrite !addAuthorizedIssuer_eq, !addAuthorizedRevoker_eq, Hown.
  split; [|split; [|split]].
  - intros Ha. by rewrite (add_member_present _ _ _ Hi Ha).
  - intros Ha. by rewrite (add_member_present _ _ _ Hv Ha).
  - intros st' evs Hadd.
    destruct (add_member a (issuerIndex st) (issuerList st)) as [[idx' l']|] eqn:Hm;
      [|done].
    pose proof (add_member_index_ok _ _ _ _ _ Hi Hm) as Hok'.
    apply add_member_Ok in Hm as (_ & _ & -> & ->). simplify_eq.
    rewrite addAuthorizedIssuer_eq.
    change (isOwner (set_issuerList _ _)) with (isOwner st). rewrite Hown. simpl.
    rewrite (add_member_present _ _ _ Hok'); [done|].
    apply elem_of_app. right. apply list_elem_of_here.
  - intros st' evs Hadd.
    destruct (add_member a (revokerIndex st) (revokerList st)) as [[idx' l']|] eqn:Hm;
      [|done].
    pose proof (add_member_index_ok _ _ _ _ _ Hv Hm) as Hok'.
    apply add_member_Ok in Hm as (_ & _ & -> & ->). simplify_eq.
    rewrite addAuthorizedRevoker_eq.
    change (isOwner (set_revokerList _ _)) with (isOwner st). rewrite Hown. simpl.
    rewrite (add_member_present _ _ _ Hok'); [done|].
    apply elem_of_app. right. apply list_elem_of_here.
Qed.

Lemma X2_add_listed_witness :
  transact (AddAuthorizedIssuer 201) O1 st_stored
    = (st_stored, [], Some (Revert "User already authorized")).
Proof.
  refine (proj1 (X2_add_listed st_stored O1 201 reachable_st_stored _) _).
  - by vm_compute.
  - change (201 ∈ [201]). apply list_elem_of_here.
Defined.

(** X3: in a reachable state, a caller that is in none of the three owner
    slots gets 'Not an owner' from each of the two adds, the two removals
    and the upgrade gate, whatever the argument: the owner test comes
    before the membership tests.  For an owner the upgrade gate passes and
    changes nothing. *)
Theorem X3_only_owners st env :
  reachable st →
  (msg_sender env ∉ owners st →
     ∀ c, owner_only c = true →
       transact c env st = (st, [], Some (Revert "Not an owner"))) ∧
  (msg_sender env ∈ owners st →
     ∀ impl, _authorizeUpgrade impl env st = Ok (tt, st, [])).
Proof.
  intros Hr. destruct (reachable_invariant _ Hr) as [_ Ho _ _ _]. split.
  - intros Hown c Hc. pose proof (isOwner_false _ _ Ho Hown) as Hno.
    unfold transact. destruct c; try done; simpl.
    + by rewrite _authorizeUpgrade_eq, Hno.
    + by rewrite addAuthorizedIssuer_eq, Hno.
    + by rewrite removeAuthorizedIssuer_eq, Hno.
    + by rewrite addAuthorizedRevoker_eq, Hno.
    + by rewrite removeAuthorizedRevoker_eq, Hno.
  - intros Hown impl. apply (isOwner_elem_of _ _ Ho) in Hown.
    by rewrite _authorizeUpgrade_eq, Hown.
Qed.

Lemma X3_only_owners_witness :
  transact (RemoveAuthorizedIssuer 77) I1 st_stored
    = (st_stored, [], Some (Revert "Not an owner")) ∧
  _authorizeUpgrade 1234 O2 st_stored = Ok (tt, st_stored, []).
Proof.
  pose proof (X3_only_owners st_stored I1 reachable_st_stored) as [Hno _].
  pose proof (X3_only_owners st_stored O2 reachable_st_stored) as [_ Hyes].
  split.
  - apply Hno; [|done].
    change (201 ∉ [101; 102; 103]). apply (bool_decide_unpack _). by vm_compute.
  - apply Hyes. change (102 ∈ [101; 102; 103]).
    apply (bool_decide_unpack _). by vm_compute.
Defined.

(** ** Initialization *)

Lemma uninitialized_owners st :
  reachable st → _initialized st = false → owners st = [0; 0; 0].
Proof.
  induction 1 as [|st c env st' evs _ IH Hstep]; [done|].
  intros Hinit. apply dispatch_Ok in Hstep.
  destruct c as [o2 o3|impl|a|a|a|a|u h cid|u h]; simpl in Hstep.
  - by destruct Hstep as (_ & _ & -> & _).
  - destruct Hstep as (_ & -> & _). by apply IH.
  - destruct Hstep as (_ & idx' & l' & _ & -> & _). by apply IH.
  - destruct Hstep as (_ & idx' & l' & _ & -> & _). by apply IH.
  - destruct Hstep as (_ & idx' & l' & _ & -> & _). by apply IH.
  - destruct Hstep as (_ & idx' & l' & _ & -> & _). by apply IH.
  - destruct Hstep as (_ & _ & _ & -> & _). by apply IH.
  - destruct Hstep as (_ & _ & Hfind).
    destruct (list_find _ _) as [[j d]|]; destruct Hfind as [-> _]; by apply IH.
Qed.

(** X4: on a reachable, not yet initialized contract, [initialize] from a
    sender that is not the transaction origin gets 'Only the deployer can
    initialize' and is reverted, so the contract stays uninitialized; from
    a sender that is the origin it succeeds, and afterwards the owner test
    passes for the caller and the two supplied addresses and for nobody
    else. *)
Theorem X4_initialize st env o2 o3 :
  reachable st →
  _initialized st = false →
  (msg_sender env ≠ tx_origin env →
     transact (Initialize o2 o3) env st
       = (st, [], Some (Revert "Only the deployer can initialize"))) ∧
  (msg_sender env = tx_origin env →
     ∃ st' evs, initialize o2 o3 env st = Ok (tt, st', evs) ∧
       ∀ a, isOwner st' a = true ↔ a = msg_sender env ∨ a = o2 ∨ a = o3).
Proof.
  intros Hr Hinit. pose proof (uninitialized_owners _ Hr Hinit) as Ho.
  unfold transact. simpl. rewrite initialize_eq, Hinit. split.
  - intros Hne. by rewrite (proj2 (N.eqb_neq _ _) Hne).
  - intros Heq. rewrite (proj2 (N.eqb_eq _ _) Heq). eexists _, _. split; [done|].
    intros a. unfold isOwner, owner_slot. simpl. rewrite Ho. simpl.
    rewrite !orb_true_iff, !N.eqb_eq. tauto.
Qed.

Lemma X4_initialize_witness :
  transact (Initialize 900 900) Relayed deployed
    = (deployed, [], Some (Revert "Only the deployer can initialize")) ∧
  ∃ st' evs, initialize 102 103 O1 deployed = Ok (tt, st', evs) ∧
    ∀ a, isOwner st' a = true ↔ a = 101 ∨ a = 102 ∨ a = 103.
Proof.
  pose proof (X4_initialize deployed Relayed 900 900 reachable_deployed eq_refl)
    as [Hrelay _].
  pose proof (X4_initialize deployed O1 102 103 reachable_deployed eq_refl)
    as [_ Hdirect].
  split; [by apply Hrelay | by apply Hdirect].
Defined.

(** X5: as long as a reachable contract is not initialized, its three owner
    slots hold the zero address, so the owner test passes for address 0
    only and every owner-only call from another address gets 'Not an
    owner'. *)
Theorem X5_uninitialized_owners st :
  reachable st →
  _initialized st = false →
  owners st = [0; 0; 0] ∧
  (∀ a, isOwner st a = true ↔ a = 0) ∧
  (∀ env c, msg_sender env ≠ 0 → owner_only c = true →
     dispatch c env st = Err (Revert "Not an owner")).
Proof.
  intros Hr Hinit. pose proof (uninitialized_owners _ Hr Hinit) as Ho.
  assert (∀ a, isOwner st a = true ↔ a = 0) as Hzero.
  { intros a. unfold isOwner, owner_slot. rewrite Ho. simpl.
    rewrite !orb_true_iff, !N.eqb_eq. tauto. }
  split; [done|]. split; [done|].
  intros env c Hne Hc.
  assert (isOwner st (msg_sender env) = false) as Hno.
  { destruct (isOwner st (msg_sender env)) eqn:Hown; [|done]. by apply Hzero in Hown. }
  destruct c; try done; simpl.
  - by rewrite _authorizeUpgrade_eq, Hno.
  - by rewrite addAuthorizedIssuer_eq, Hno.
  - by rewrite removeAuthorizedIssuer_eq, Hno.
  - by rewrite addAuthorizedRevoker_eq, Hno.
  - by rewrite removeAuthorizedRevoker_eq, Hno.
Qed.

Lemma X5_uninitialized_owners_witness :
  owners deployed = [0; 0; 0] ∧
  dispatch (AddAuthorizedIssuer 5) E5 deployed = Err (Revert "Not an owner").
Proof.
  pose proof (X5_uninitialized_owners deployed reachable_deployed eq_refl)
    as (Ho & _ & Hfail).
  split; [exact Ho|]. by apply Hfail.
Defined.

(** ** Adding and removing, composed *)

Lemma swap_remove_snoc {A} (l : list A) (a : A) :
  swap_remove (length l) (l ++ [a]) = l.
Proof.
  unfold swap_remove. rewrite last_snoc, list_insert_id.
  - apply removelast_last.
  - by rewrite lookup_app_r, Nat.sub_diag by lia.
Qed.

Lemma add_remove_member idx l a idx1 l1 :
  index_ok idx l → add_member a idx l = Ok (idx1, l1) →
  ∃ idx2, remove_member a idx1 l1 = Ok (idx2, l) ∧
    ∀ b, index_of idx2 b = index_of idx b.
Proof.
  intros Hok Hadd. pose proof (add_member_index_ok _ _ _ _ _ Hok Hadd) as Hok1.
  apply add_member_Ok in Hadd as (Hz & _ & -> & ->).
  assert ((l ++ [a]) !! length l = Some a) as Hlk
    by (by rewrite lookup_app_r, Nat.sub_diag by lia).
  destruct (remove_member_present _ _ _ _ Hok1 Hlk) as (moved & Hlast & Hrm).
  rewrite last_snoc in Hlast. simplify_eq. rewrite swap_remove_snoc in Hrm.
  eexists. split; [exact Hrm|].
  intros b. rewrite index_of_delete. case_decide as Hab; [by subst|].
  by rewrite !index_of_insert, !decide_False.
Qed.

Lemma remove_add_member idx l a i :
  index_ok idx l → l !! i = Some a →
  ∃ idx1 idx2,
    remove_member a idx l = Ok (idx1, swap_remove i l) ∧
    add_member a idx1 (swap_remove i l) = Ok (idx2, swap_remove i l ++ [a]) ∧
    index_of idx2 a = array_length l.
Proof.
  intros Hok Hi. pose proof Hok as [Hlen _].
  pose proof (lookup_lt_Some _ _ _ Hi) as Hlt.
  destruct (remove_member_present _ _ _ _ Hok Hi) as (moved & Hlast & Hrm).
  pose proof (index_ok_swap_remove _ _ _ _ _ Hok Hi Hlast) as Hok1.
  assert (a ∉ swap_remove i l) as Hgone.
  { rewrite (elem_of_swap_remove _ _ _ Hlt). intros (j & Hji & Hj).
    by pose proof (index_ok_inj _ _ _ _ _ Hok Hj Hi). }
  assert (array_length (swap_remove i l) + 1 = array_length l) as Hlen1.
  { unfold array_length. rewrite swap_remove_length. lia. }
  destruct (add_member_fresh _ _ _ Hok1 Hgone) as (Hadd & _ & Hidx & _); [lia|].
  eexists _, _. split; [exact Hrm|]. split; [exact Hadd|]. by rewrite Hidx.
Qed.

(** X6: in a reachable state, removing an address right after it was
    successfully added undoes the add: the array is the one before the add,
    every index entry reads as before, and nothing else has changed.
    Issuers and revokers alike. *)
Theorem X6_add_then_remove st env env' a :
  reachable st →
  isOwner st (msg_sender env') = true →
  (∀ st1 evs1, addAuthorizedIssuer a env st = Ok (tt, st1, evs1) →
     ∃ st2, removeAuthorizedIssuer a env' st1 = Ok (tt, st2, [IssuerRemoved a]) ∧
       issuerList st2 = issuerList st ∧
       (∀ b, index_of (issuerIndex st2) b = index_of (issuerIndex st) b) ∧
       owners st2 = owners st ∧
       revokerIndex st2 = revokerIndex st ∧ revokerList st2 = revokerList st ∧
       _userDocuments st2 = _userDocuments st) ∧
  (∀ st1 evs1, addAuthorizedRevoker a env st = Ok (tt, st1, evs1) →
     ∃ st2, removeAuthorizedRevoker a env' st1 = Ok (tt, st2, [RevokerRemoved a]) ∧
       revokerList st2 = revokerList st ∧
       (∀ b, index_of (revokerIndex st2) b = index_of (revokerIndex st) b) ∧
       owners st2 = owners st ∧
       issuerIndex st2 = issuerIndex st ∧ issuerList st2 = issuerList st ∧
       _userDocuments st2 = _userDocuments st).
Proof.
  intros Hr Hown. destruct (reachable_invariant _ Hr) as [_ _ Hi Hv _]. split.
  - intros st1 evs1 Hadd.
    apply (dispatch_Ok (AddAuthorizedIssuer a)) in Hadd
      as (_ & idx1 & l1 & Hm & -> & _).
    destruct (add_remove_member _ _ _ _ _ Hi Hm) as (idx2 & Hrm & Hsame).
    rewrite removeAuthorizedIssuer_eq.
    change (isOwner (set_issuerList _ _)) with (isOwner st). rewrite Hown.
    simpl. rewrite Hrm. by eexists.
  - intros st1 evs1 Hadd.
    apply (dispatch_Ok (AddAuthorizedRevoker a)) in Hadd
      as (_ & idx1 & l1 & Hm & -> & _).
    destruct (add_remove_member _ _ _ _ _ Hv Hm) as (idx2 & Hrm & Hsame).
    rewrite removeAuthorizedRevoker_eq.
    change (isOwner (set_revokerList _ _)) with (isOwner st). rewrite Hown.
    simpl. rewrite Hrm. by eexists.
Qed.

Lemma X6_add_then_remove_witness :
  ∃ st2, removeAuthorizedIssuer 3 O2 st_members = Ok (tt, st2, [IssuerRemoved 3]) ∧
    issuerList st2 = [201; 1; 2].
Proof.
  destruct (X6_add_then_remove
              (run [(AddAuthorizedIssuer 1, O1); (AddAuthorizedIssuer 2, O1)] st_stored)
              O1 O2 3) as [Hiss _].
  - apply reachable_run, reachable_st_stored.
  - by vm_compute.
  - destruct (Hiss st_members [IssuerAdded 3]) as (st2 & Hrm & Hl & _);
      [by vm_compute|].
    exists st2. split; [exact Hrm|]. rewrite Hl. by vm_compute.
Defined.

(** X7: in a reachable state, an owner can remove a listed address and add
    it again at once; the address then sits in the last slot, its index
    entry is the array length, and the array is as long as before the
    removal.  Issuers and revokers alike. *)
Theorem X7_remove_then_add st env a :
  reachable st →
  isOwner st (msg_sender env) = true →
  (a ∈ issuerList st →
     ∃ st1 st2,
       removeAuthorizedIssuer a env st = Ok (tt, st1, [IssuerRemoved a]) ∧
       addAuthorizedIssuer a env st1 = Ok (tt, st2, [IssuerAdded a]) ∧
       last (issuerList st2) = Some a ∧
       index_of (issuerIndex st2) a = array_length (issuerList st) ∧
       length (issuerList st2) = length (issuerList st)) ∧
  (a ∈ revokerList st →
     ∃ st1 st2,
       removeAuthorizedRevoker a env st = Ok (tt, st1, [RevokerRemoved a]) ∧
       addAuthorizedRevoker a env st1 = Ok (tt, st2, [RevokerAdded a]) ∧
       last (revokerList st2) = Some a ∧
       index_of (revokerIndex st2) a = array_length (revokerList st) ∧
       length (revokerList st2) = length (revokerList st)).
Proof.
  intros Hr Hown. destruct (reachable_invariant _ Hr) as [_ _ Hi Hv _]. split.
  - intros [i Hlk]%list_elem_of_lookup.
    destruct (remove_add_member _ _ _ _ Hi Hlk) as (idx1 & idx2 & Hrm & Hadd & Hidx).
    pose proof (lookup_lt_Some _ _ _ Hlk) as Hlt.
    eexists _, _. rewrite removeAuthorizedIssuer_eq, Hown, Hrm.
    split; [done|]. rewrite addAuthorizedIssuer_eq.
    change (isOwner (set_issuerIndex _ _)) with (isOwner st). rewrite Hown.
    simpl. rewrite Hadd. split; [done|]. simpl.
    split; [apply last_snoc|]. split; [done|].
    rewrite length_app, swap_remove_length. simpl. lia.
  - intros [i Hlk]%list_elem_of_lookup.
    destruct (remove_add_member _ _ _ _ Hv Hlk) as (idx1 & idx2 & Hrm & Hadd & Hidx).
    pose proof (lookup_lt_Some _ _ _ Hlk) as Hlt.
    eexists _, _. rewrite removeAuthorizedRevoker_eq, Hown, Hrm.
    split; [done|]. rewrite addAuthorizedRevoker_eq.
    change (isOwner (set_revokerIndex _ _)) with (isOwner st). rewrite Hown.
    simpl. rewrite Hadd. split; [done|]. simpl.
    split; [apply last_snoc|]. split; [done|].
    rewrite length_app, swap_remove_length. simpl. lia.
Qed.

Lemma X7_remove_then_add_witness :
  ∃ st1 st2,
    removeAuthorizedIssuer 1 O1 st_members = Ok (tt, st1, [IssuerRemoved 1]) ∧
    addAuthorizedIssuer 1 O1 st1 = Ok (tt, st2, [IssuerAdded 1]) ∧
    last (issuerList st2) = Some 1 ∧
    index_of (issuerIndex st2) 1 = array_length (issuerList st_members) ∧
    length (issuerList st2) = length (issuerList st_members).
Proof.
  refine (proj1 (X7_remove_then_add st_members O1 1 reachable_st_members _) _).
  - by vm_compute.
  - change (1 ∈ [201; 1; 2; 3]). apply (bool_decide_unpack _). by vm_compute.
Defined.

(** ** Storing and revoking *)

Lemma store_fresh st env u hash cid :
  reachable st → canStore st (msg_sender env) = true →
  hash ∉ sha256Hash <$> docs_of st u →
  storeDocument u hash cid env st =
    Ok (tt,
        set_status NOT_ENTERED
          (set_userDocuments
             (<[u := docs_of st u ++ [mkDocument hash cid]]> (_userDocuments st)) st),
        [DocumentStored u hash cid]).
Proof.
  intros Hr Hauth Hno.
  rewrite storeDocument_eq, (inv_status _ (reachable_invariant _ Hr)), Hauth.
  destruct (has_hash hash (docs_of st u)) eqn:Hh; [|done].
  by apply has_hash_elem_of in Hh.
Qed.

(** X8: in a reachable state, a [storeDocument] by an owner or issuer for a
    hash the user does not have yet succeeds and logs exactly
    [DocumentStored] with the user, hash and reference; the new record is
    appended, every earlier record keeps its position, and
    [getDocumentCount] grows by one. *)
Theorem X8_store_appends st env u hash cid :
  reachable st →
  canStore st (msg_sender env) = true →
  hash ∉ sha256Hash <$> docs_of st u →
  ∃ st', storeDocument u hash cid env st
           = Ok (tt, st', [DocumentStored u hash cid]) ∧
    docs_of st' u = docs_of st u ++ [mkDocument hash cid] ∧
    (∀ i d, docs_of st u !! i = Some d → docs_of st' u !! i = Some d) ∧
    (getDocuments st' u).1 = (getDocuments st u).1 ++ [hash] ∧
    (getDocuments st' u).2 = (getDocuments st u).2 ++ [cid] ∧
    getDocumentCount st' u = getDocumentCount st u + 1.
Proof.
  intros Hr Hauth Hno. eexists. split; [by apply store_fresh|].
  unfold getDocuments, getDocumentCount, array_length. simpl.
  rewrite docs_of_insert, decide_True by done.
  split; [done|]. split; [|split; [|split]].
  - intros i d Hi. by apply lookup_app_l_Some.
  - by rewrite fmap_app.
  - by rewrite fmap_app.
  - rewrite length_app. simpl. lia.
Qed.

Lemma X8_store_appends_witness :
  ∃ st', storeDocument 42 8 "cidB" O2 st_stored
           = Ok (tt, st', [DocumentStored 42 8 "cidB"]) ∧
    getDocuments st' 42 = ([7; 8], ["cidA"; "cidB"]).
Proof.
  destruct (X8_store_appends st_stored O2 42 8 "cidB" reachable_st_stored)
    as (st' & Hst & _ & _ & Hh & Hc & _).
  - by vm_compute.
  - change (8 ∉ [7]). apply (bool_decide_unpack _). by vm_compute.
  - exists st'. split; [exact Hst|].
    rewrite (surjective_pairing (getDocuments st' 42)), Hh, Hc. by vm_compute.
Defined.

(** X9: uniqueness of hashes is per user.  In a reachable state, after a
    hash was stored for one user, an owner or issuer can store the same
    hash for another user who does not have it, and both users then list
    it. *)
Theorem X9_same_hash_other_user st env u1 cid1 hash st1 evs1 env' u2 cid2 :
  reachable st →
  storeDocument u1 hash cid1 env st = Ok (tt, st1, evs1) →
  u2 ≠ u1 →
  hash ∉ sha256Hash <$> docs_of st u2 →
  canStore st1 (msg_sender env') = true →
  ∃ st2, storeDocument u2 hash cid2 env' st1
           = Ok (tt, st2, [DocumentStored u2 hash cid2]) ∧
    mkDocument hash cid1 ∈ docs_of st2 u1 ∧
    mkDocument hash cid2 ∈ docs_of st2 u2.
Proof.
  intros Hr Hst Hne Hno Hauth.
  assert (reachable st1) as Hr1.
  { by apply (reachable_call st (StoreDocument u1 hash cid1) env st1 evs1). }
  apply (dispatch_Ok (StoreDocument u1 hash cid1)) in Hst as (_ & _ & _ & Hst1 & _).
  assert (docs_of st1 u2 = docs_of st u2) as Hd2.
  { rewrite Hst1, docs_of_insert. by rewrite decide_False. }
  assert (docs_of st1 u1 = docs_of st u1 ++ [mkDocument hash cid1]) as Hd1.
  { rewrite Hst1, docs_of_insert. by rewrite decide_True. }
  eexists. split; [apply store_fresh; [done..|by rewrite Hd2]|].
  rewrite !docs_of_insert, decide_False, decide_True by done. split.
  - rewrite Hd1. apply elem_of_app. right. apply list_elem_of_here.
  - apply elem_of_app. right. apply list_elem_of_here.
Qed.

Lemma X9_same_hash_other_user_witness :
  ∃ st2, storeDocument 43 7 "cidZ" O2 st_stored
           = Ok (tt, st2, [DocumentStored 43 7 "cidZ"]) ∧
    mkDocument 7 "cidA" ∈ docs_of st2 42 ∧
    mkDocument 7 "cidZ" ∈ docs_of st2 43.
Proof.
  apply (X9_same_hash_other_user st_setup I1 42 "cidA" 7 st_stored
           [DocumentStored 42 7 "cidA"] O2 43 "cidZ" reachable_st_setup).
  - by vm_compute.
  - done.
  - change (7 ∉ @nil N). apply not_elem_of_nil.
  - by vm_compute.
Defined.

(** X10: revoking is idempotent.  In a reachable state, after a successful
    [revokeDocument] of a hash (whether it removed a record or not), the
    same revocation by any owner or revoker succeeds again, changes nothing
    and logs nothing. *)
Theorem X10_revoke_twice st env u hash st1 evs1 env' :
  reachable st →
  revokeDocument u hash env st = Ok (tt, st1, evs1) →
  canRevoke st1 (msg_sender env') = true →
  revokeDocument u hash env' st1 = Ok (tt, st1, []).
Proof.
  intros Hr Hrev Hauth.
  assert (reachable st1) as Hr1.
  { by apply (reachable_call st (RevokeDocument u hash) env st1 evs1). }
  destruct (reachable_invariant _ Hr) as [_ _ _ _ Hu].
  pose proof (inv_status _ (reachable_invariant _ Hr1)) as Hs1.
  assert (hash ∉ sha256Hash <$> docs_of st1 u) as Hgone.
  { apply (dispatch_Ok (RevokeDocument u hash)) in Hrev as (_ & _ & Hfind).
    destruct (list_find _ _) as [[j d]|] eqn:Hf; destruct Hfind as [-> _].
    - rewrite docs_of_insert, decide_True by done.
      apply list_find_hash_Some in Hf as (Hj & <- & _).
      by apply swap_remove_docs.
    - by apply list_find_hash_None in Hf. }
  rewrite revokeDocument_eq, Hs1, Hauth.
  apply list_find_hash_None in Hgone. rewrite Hgone.
  by rewrite <- Hs1, set_status_id.
Qed.

Lemma X10_revoke_twice_witness :
  revokeDocument 42 7 O1 st_revoked = Ok (tt, st_revoked, []).
Proof.
  apply (X10_revoke_twice st_stored R1 42 7 st_revoked
           [DocumentRevoked 42 7 "cidA"] O1 reachable_st_stored);
    by vm_compute.
Defined.

(** X11: what a revocation does to the order of a user's records.  In a
    reachable state, when the record at position [j] carries the hash, a
    [revokeDocument] by an owner or revoker leaves the collection one
    shorter; the former last record now sits at [j] (unless [j] was the
    last position) and every other remaining position holds what it held
    before. *)
Theorem X11_revoke_order st env u hash j d :
  reachable st →
  canRevoke st (msg_sender env) = true →
  docs_of st u !! j = Some d →
  sha256Hash d = hash →
  ∃ st' lastDoc,
    revokeDocument u hash env st
      = Ok (tt, st', [DocumentRevoked u hash (ipfsCID d)]) ∧
    last (docs_of st u) = Some lastDoc ∧
    length (docs_of st' u) = pred (length (docs_of st u)) ∧
    (j < pred (length (docs_of st u)) → docs_of st' u !! j = Some lastDoc)%nat ∧
    (∀ k, k ≠ j → (k < pred (length (docs_of st u)))%nat →
       docs_of st' u !! k = docs_of st u !! k).
Proof.
  intros Hr Hauth Hj Hh. destruct (reachable_invariant _ Hr) as [Hs _ _ _ Hu].
  pose proof (lookup_lt_Some _ _ _ Hj) as Hlt.
  destruct (last (docs_of st u)) as [lastDoc|] eqn:Hl.
  2: { apply last_None in Hl. rewrite Hl in Hlt. simpl in Hlt. lia. }
  assert (list_find (λ d, sha256Hash d = hash) (docs_of st u) = Some (j, d)) as Hf.
  { destruct (list_find _ (docs_of st u)) as [[j0 d0]|] eqn:Hf.
    2: { apply list_find_hash_None in Hf. exfalso. apply Hf.
         apply list_elem_of_fmap. exists d. split; [done|].
         apply list_elem_of_lookup. by exists j. }
    apply list_find_hash_Some in Hf as (Hj0 & Hh0 & _).
    assert (j0 = j) as -> by (eapply hash_lookup_inj; [apply Hu|done..|congruence]).
    congruence. }
  eexists _, lastDoc. rewrite revokeDocument_eq, Hs, Hauth, Hf.
  split; [by rewrite Hh|]. split; [done|].
  rewrite docs_of_insert, decide_True by done.
  split; [apply swap_remove_length|]. split.
  - intros Hjl. rewrite (swap_remove_lookup _ _ _ _ Hl Hlt).
    rewrite decide_True by done. by rewrite decide_True.
  - intros k Hk Hkl. rewrite (swap_remove_lookup _ _ _ _ Hl Hlt).
    rewrite decide_True by done. by rewrite decide_False.
Qed.

Lemma X11_revoke_order_witness :
  ∃ st' lastDoc,
    revokeDocument 42 7 R1 (run [(StoreDocument 42 8 "cidB", O2)] st_stored)
      = Ok (tt, st', [DocumentRevoked 42 7 "cidA"]) ∧
    lastDoc = mkDocument 8 "cidB" ∧
    docs_of st' 42 !! 0%nat = Some lastDoc.
Proof.
  destruct (X11_revoke_order (run [(StoreDocument 42 8 "cidB", O2)] st_stored)
              R1 42 7 0%nat (mkDocument 7 "cidA"))
    as (st' & lastDoc & Hrev & Hlast & _ & Hmoved & _).
  - apply reachable_run, reachable_st_stored.
  - by vm_compute.
  - by vm_compute.
  - done.
  - exists st', lastDoc. split; [exact Hrev|]. split.
    + vm_compute in Hlast. congruence.
    + apply Hmoved. vm_compute. lia.
Defined.

(** X12: owners keep their rights.  From a reachable, initialized state on,
    whatever calls succeed (removing the owner from the issuer or revoker
    array included), an address in [owners] still passes the owner test and
    the authorization tests of [storeDocument] and [revokeDocument]. *)
Theorem X12_owner_rights_persist st st' a :
  reachable st →
  _initialized st = true →
  a ∈ owners st →
  reaches st st' →
  isOwner st' a = true ∧ canStore st' a = true ∧ canRevoke st' a = true.
Proof.
  intros Hr Hinit Ha Hreach.
  destruct (reaches_owners _ _ Hinit Hreach) as [Ho _].
  pose proof (inv_owners _ (reachable_invariant _ Hr)) as Hlen.
  assert (isOwner st' a = true) as Hown.
  { apply isOwner_elem_of; by rewrite Ho. }
  unfold canStore, canRevoke. rewrite Hown, !orb_true_r. done.
Qed.

Lemma X12_owner_rights_persist_witness :
  isOwner st_stored 103 = true ∧ canStore st_stored 103 = true ∧
  canRevoke st_stored 103 = true.
Proof.
  apply (X12_owner_rights_persist st_setup st_stored 103 reachable_st_setup eq_refl).
  - change (103 ∈ [101; 102; 103]). apply (bool_decide_unpack _). by vm_compute.
  - apply (reaches_call _ st_setup (StoreDocument 42 7 "cidA") I1 st_stored
             [DocumentStored 42 7 "cidA"]); [apply reaches_refl | by vm_compute].
Defined.

(** ** The event log *)

Lemma trace_reachable st log : trace st log → reachable st.
Proof.
  induction 1 as [|st log c env st' evs _ IH Hstep];
    [apply reachable_deployed | by eapply reachable_call].
Qed.

Lemma trace_run_log cs st log :
  trace st log → trace (run_log cs st log).1 (run_log cs st log).2.
Proof.
  revert st log. induction cs as [|[c env] cs IH]; intros st log Ht; [done|].
  simpl. apply IH. unfold transact.
  destruct (dispatch c env st) as [[[[] st'] evs]|e] eqn:Hd; simpl.
  - by eapply trace_call.
  - by rewrite app_nil_r.
Qed.

Lemma remove_member_Ok_elem_of idx l a idx' l' :
  index_ok idx l → remove_member a idx l = Ok (idx', l') →
  ∀ m, m ∈ l' ↔ m ∈ l ∧ m ≠ a.
Proof.
  intros Hok Hrm. destruct (decide (a ∈ l)) as [Ha|Ha].
  - destruct (remove_member_swap_removed _ _ _ Hok Ha)
      as (idx2 & l2 & Hrm2 & _ & Hsw).
    rewrite Hrm in Hrm2. simplify_eq.
    by destruct Hsw as (i & moved & _ & _ & _ & _ & _ & _ & Hmem & _).
  - by rewrite (remove_member_absent _ _ _ Hok Ha) in Hrm.
Qed.

Lemma trace_issuers st log :
  trace st log → ∀ a, a ∈ issuerList st ↔ issuer_in_log log a = true.
Proof.
  induction 1 as [|st log c env st' evs Ht IH Hstep]; intros x.
  { split; [by intros ?%elem_of_nil | done]. }
  destruct (reachable_invariant _ (trace_reachable _ _ Ht)) as [_ _ Hi _ _].
  unfold issuer_in_log in *. rewrite fold_left_app.
  apply dispatch_Ok in Hstep.
  destruct c as [o2 o3|impl|a|a|a|a|u h cid|u h]; simpl in Hstep.
  - destruct Hstep as (_ & _ & -> & ->). apply IH.
  - destruct Hstep as (_ & -> & ->). apply IH.
  - destruct Hstep as (_ & idx' & l' & Hadd & -> & ->).
    apply add_member_Ok in Hadd as (_ & _ & -> & ->). simpl.
    rewrite elem_of_app, list_elem_of_singleton, IH.
    destruct (N.eqb_spec a x); intuition congruence.
  - destruct Hstep as (_ & idx' & l' & Hrm & -> & ->). simpl.
    rewrite (remove_member_Ok_elem_of _ _ _ _ _ Hi Hrm), IH.
    destruct (N.eqb_spec a x); intuition congruence.
  - destruct Hstep as (_ & idx' & l' & _ & -> & ->). apply IH.
  - destruct Hstep as (_ & idx' & l' & _ & -> & ->). apply IH.
  - destruct Hstep as (_ & _ & _ & -> & ->). apply IH.
  - destruct Hstep as (_ & _ & Hfind).
    destruct (list_find _ _) as [[j d]|]; destruct Hfind as [-> ->]; apply IH.
Qed.

Lemma trace_revokers st log :
  trace st log → ∀ a, a ∈ revokerList st ↔ revoker_in_log log a = true.
Proof.
  induction 1 as [|st log c env st' evs Ht IH Hstep]; intros x.
  { split; [by intros ?%elem_of_nil | done]. }
  destruct (reachable_invariant _ (trace_reachable _ _ Ht)) as [_ _ _ Hv _].
  unfold revoker_in_log in *. rewrite fold_left_app.
  apply dispatch_Ok in Hstep.
  destruct c as [o2 o3|impl|a|a|a|a|u h cid|u h]; simpl in Hstep.
  - destruct Hstep as (_ & _ & -> & ->). apply IH.
  - destruct Hstep as (_ & -> & ->). apply IH.
  - destruct Hstep as (_ & idx' & l' & _ & -> & ->). apply IH.
  - destruct Hstep as (_ & idx' & l' & _ & -> & ->). apply IH.
  - destruct Hstep as (_ & idx' & l' & Hadd & -> & ->).
    apply add_member_Ok in Hadd as (_ & _ & -> & ->). simpl.
    rewrite elem_of_app, list_elem_of_singleton, IH.
    destruct (N.eqb_spec a x); intuition congruence.
  - destruct Hstep as (_ & idx' & l' & Hrm & -> & ->). simpl.
    rewrite (remove_member_Ok_elem_of _ _ _ _ _ Hv Hrm), IH.
    destruct (N.eqb_spec a x); intuition congruence.
  - destruct Hstep as (_ & _ & _ & -> & ->). apply IH.
  - destruct Hstep as (_ & _ & Hfind).
    destruct (list_find _ _) as [[j d]|]; destruct Hfind as [-> ->]; apply IH.
Qed.

(** X13: the log determines the authorization arrays.  After any sequence
    of successful calls since deployment, an address is in the issuer
    (revoker) array, and passes the issuer (revoker) test, exactly when the
    last IssuerAdded / IssuerRemoved (RevokerAdded / RevokerRemoved) event
    about it in the log is an Added one. *)
Theorem X13_log_members st log a :
  trace st log →
  (a ∈ getAllAuthorizedIssuers st ↔ issuer_in_log log a = true) ∧
  (a ∈ getAllAuthorizedRevokers st ↔ revoker_in_log log a = true) ∧
  isIssuer st a = issuer_in_log log a ∧
  isRevoker st a = revoker_in_log log a.
Proof.
  intros Ht. pose proof (trace_issuers _ _ Ht a) as Hi.
  pose proof (trace_revokers _ _ Ht a) as Hv.
  destruct (reachable_invariant _ (trace_reachable _ _ Ht)) as [_ _ Hoki Hokv _].
  split; [done|]. split; [done|]. unfold isIssuer, isRevoker. split.
  - destruct (decide (a ∈ issuerList st)) as [Ha|Ha].
    + rewrite (index_of_pos _ _ _ Hoki Ha). symmetry. by apply Hi.
    + rewrite (index_of_zero _ _ _ Hoki Ha). symmetry.
      apply not_true_is_false. by rewrite <- Hi.
  - destruct (decide (a ∈ revokerList st)) as [Ha|Ha].
    + rewrite (index_of_pos _ _ _ Hokv Ha). symmetry. by apply Hv.
    + rewrite (index_of_zero _ _ _ Hokv Ha). symmetry.
      apply not_true_is_false. by rewrite <- Hv.
Qed.

Lemma X13_log_members_witness :
  isIssuer st_log.1 201 = false ∧ isIssuer st_log.1 1 = true ∧
  isRevoker st_log.1 301 = true.
Proof.
  assert (trace st_log.1 st_log.2) as Ht.
  { unfold st_log. apply trace_run_log, trace_deployed. }
  pose proof (X13_log_members st_log.1 st_log.2 201 Ht) as (_ & _ & H201 & _).
  pose proof (X13_log_members st_log.1 st_log.2 1 Ht) as (_ & _ & H1 & _).
  pose proof (X13_log_members st_log.1 st_log.2 301 Ht) as (_ & _ & _ & H301).
  split; [|split].
  - etrans; [exact H201 | by vm_compute].
  - etrans; [exact H1 | by vm_compute].
  - etrans; [exact H301 | by vm_compute].
Defined.

Lemma listed_pair st u hash cid :
  (∃ i, (getDocuments st u).1 !! i = Some hash ∧
        (getDocuments st u).2 !! i = Some cid)
  ↔ mkDocument hash cid ∈ docs_of st u.
Proof.
  unfold getDocuments. cbn [fst snd]. rewrite list_elem_of_lookup.
  split; intros [i Hi]; exists i.
  - destruct Hi as [Hh Hc]. rewrite list_lookup_fmap in Hh.
    rewrite list_lookup_fmap in Hc.
    destruct (docs_of st u !! i) as [[h c]|]; simpl in *; congruence.
  - by rewrite !list_lookup_fmap, Hi.
Qed.

Lemma trace_documents st log :
  trace st log →
  ∀ u hash cid,
    mkDocument hash cid ∈ docs_of st u ↔ document_in_log log u hash = Some cid.
Proof.
  induction 1 as [|st log c env st' evs Ht IH Hstep]; intros u0 h0 c0.
  { unfold docs_of. simpl. rewrite lookup_empty. simpl.
    split; [by intros ?%elem_of_nil | done]. }
  destruct (reachable_invariant _ (trace_reachable _ _ Ht)) as [_ _ _ _ Hu].
  unfold document_in_log in *. rewrite fold_left_app.
  apply dispatch_Ok in Hstep.
  destruct c as [o2 o3|impl|a|a|a|a|u h cid|u h]; simpl in Hstep.
  - destruct Hstep as (_ & _ & -> & ->). apply IH.
  - destruct Hstep as (_ & -> & ->). apply IH.
  - destruct Hstep as (_ & idx' & l' & _ & -> & ->). apply IH.
  - destruct Hstep as (_ & idx' & l' & _ & -> & ->). apply IH.
  - destruct Hstep as (_ & idx' & l' & _ & -> & ->). apply IH.
  - destruct Hstep as (_ & idx' & l' & _ & -> & ->). apply IH.
  - destruct Hstep as (_ & _ & Hno & -> & ->). rewrite docs_of_insert. simpl.
    destruct (N.eqb_spec u u0) as [->|Hne]; simpl.
    2: { rewrite decide_False by done. apply IH. }
    rewrite decide_True by done.
    rewrite elem_of_app, list_elem_of_singleton.
    destruct (N.eqb_spec h h0) as [->|Hh].
    + split; [|intros [= ->]; by right].
      intros [Hin|[= ->]]; [|done]. exfalso.
      assert (has_hash h0 (docs_of st u0) = true) as Hyes; [|congruence].
      apply has_hash_elem_of, list_elem_of_fmap. by exists (mkDocument h0 c0).
    + rewrite <- IH. split; [|by left]. intros [?|[= ? ?]]; [done|congruence].
  - destruct Hstep as (_ & _ & Hfind).
    destruct (list_find _ _) as [[j d]|] eqn:Hf; destruct Hfind as [-> ->].
    2: { apply IH. }
    apply list_find_hash_Some in Hf as (Hj & Hh & _).
    destruct (swap_remove_docs _ _ _ (Hu u) Hj) as (Hgone & Hmem & _).
    rewrite docs_of_insert. simpl. rewrite Hh.
    destruct (N.eqb_spec u u0) as [->|Hne]; simpl.
    2: { rewrite decide_False by done. apply IH. }
    rewrite decide_True by done.
    destruct (N.eqb_spec h h0) as [->|Hne].
    + split; [|done]. intros Hin. exfalso. apply Hgone. rewrite Hh.
      apply list_elem_of_fmap. by exists (mkDocument h0 c0).
    + rewrite Hmem, <- IH. split; [by intros [? _]|].
      intros Hin. split; [done|]. intros <-. simpl in Hh. congruence.
Qed.

(** X14: the log determines the documents.  After any sequence of
    successful calls since deployment, [getDocuments] lists a hash with a
    reference for a user exactly when the last DocumentStored /
    DocumentRevoked event about that user and hash in the log is a
    DocumentStored one carrying that reference. *)
Theorem X14_log_documents st log u hash cid :
  trace st log →
  (∃ i, (getDocuments st u).1 !! i = Some hash ∧
        (getDocuments st u).2 !! i = Some cid)
  ↔ document_in_log log u hash = Some cid.
Proof.
  intros Ht. rewrite listed_pair. by apply trace_documents.
Qed.

Lemma X14_log_documents_witness :
  (∃ i, (getDocuments st_log.1 42).1 !! i = Some 8 ∧
        (getDocuments st_log.1 42).2 !! i = Some "cidB") ∧
  document_in_log st_log.2 42 7 = None.
Proof.
  assert (trace st_log.1 st_log.2) as Ht.
  { unfold st_log. apply trace_run_log, trace_deployed. }
  split; [|by vm_compute].
  apply (X14_log_documents st_log.1 st_log.2 42 8 "cidB" Ht). by vm_compute.
Defined.

(** ** What never happens *)

Lemma add_member_Err idx l a e :
  index_ok idx l → add_member a idx l = Err e →
  e = Revert "User already authorized" ∨
  (e = Panic 17 ∧ array_length l = UINT256_MAX).
Proof.
  intros [Hlen _]. unfold add_member.
  destruct (_ && _); [|intros [= <-]; by left].
  destruct (N.leb_spec (array_length l + 1) UINT256_MAX); [done|].
  intros [= <-]. right. split; [done | lia].
Qed.

Lemma remove_member_Err idx l a e :
  index_ok idx l → remove_member a idx l = Err e →
  e = Revert "User is not authorized".
Proof.
  intros Hok Hrm. destruct (decide (a ∈ l)) as [Ha|Ha].
  - destruct (remove_member_swap_removed _ _ _ Hok Ha) as (idx' & l' & Hrm' & _).
    congruence.
  - rewrite (remove_member_absent _ _ _ Hok Ha) in Hrm. congruence.
Qed.

(** X15: in a reachable state no call ever trips a bounds check, an
    underflow or a pop of an empty array, and no call is rejected by the
    reentrancy guard: a call that fails does so with one of the [require]
    messages of the contract or with [AlreadyInitialized], except that an
    add to an array of maximal length fails on the overflow of
    [length + 1]. *)
Theorem X15_failures st c env e :
  reachable st →
  dispatch c env st = Err e →
  e ≠ ReentrancyError ∧
  ∀ code, e = Panic code →
    code = 17 ∧
    ((∃ a, c = AddAuthorizedIssuer a ∧
           array_length (issuerList st) = UINT256_MAX) ∨
     (∃ a, c = AddAuthorizedRevoker a ∧
           array_length (revokerList st) = UINT256_MAX)).
Proof.
  intros Hr Herr. destruct (reachable_invariant _ Hr) as [Hs _ Hi Hv _].
  destruct c as [o2 o3|impl|a|a|a|a|u h cid|u h]; simpl in Herr.
  - rewrite initialize_eq in Herr. destruct (_initialized st); [by simplify_eq|].
    destruct (_ =? _); by simplify_eq.
  - rewrite _authorizeUpgrade_eq in Herr. destruct (isOwner st _); by simplify_eq.
  - rewrite addAuthorizedIssuer_eq in Herr.
    destruct (isOwner st _); [|by simplify_eq].
    destruct (add_member _ _ _) as [[idx' l']|e'] eqn:Hm; simplify_eq.
    destruct (add_member_Err _ _ _ _ Hi Hm) as [->|[-> Hmax]]; [done|].
    split; [done|]. intros code [= <-]. split; [done|]. left. by exists a.
  - rewrite removeAuthorizedIssuer_eq in Herr.
    destruct (isOwner st _); [|by simplify_eq].
    destruct (remove_member _ _ _) as [[idx' l']|e'] eqn:Hm; simplify_eq.
    by rewrite (remove_member_Err _ _ _ _ Hi Hm).
  - rewrite addAuthorizedRevoker_eq in Herr.
    destruct (isOwner st _); [|by simplify_eq].
    destruct (add_member _ _ _) as [[idx' l']|e'] eqn:Hm; simplify_eq.
    destruct (add_member_Err _ _ _ _ Hv Hm) as [->|[-> Hmax]]; [done|].
    split; [done|]. intros code [= <-]. split; [done|]. right. by exists a.
  - rewrite removeAuthorizedRevoker_eq in Herr.
    destruct (isOwner st _); [|by simplify_eq].
    destruct (remove_member _ _ _) as [[idx' l']|e'] eqn:Hm; simplify_eq.
    by rewrite (remove_member_Err _ _ _ _ Hv Hm).
  - rewrite storeDocument_eq, Hs in Herr.
    destruct (canStore st _); [|by simplify_eq].
    destruct (has_hash _ _); by simplify_eq.
  - rewrite revokeDocument_eq, Hs in Herr.
    destruct (canRevoke st _); [|by simplify_eq].
    destruct (list_find _ _) as [[j d]|]; by simplify_eq.
Qed.

Lemma X15_failures_witness :
  Revert "User is not authorized" ≠ ReentrancyError ∧
  ∀ code, Revert "User is not authorized" = Panic code →
    code = 17 ∧
    ((∃ a, RemoveAuthorizedIssuer 77 = AddAuthorizedIssuer a ∧
           array_length (issuerList st_members) = UINT256_MAX) ∨
     (∃ a, RemoveAuthorizedIssuer 77 = AddAuthorizedRevoker a ∧
           array_length (revokerList st_members) = UINT256_MAX)).
Proof.
  apply (X15_failures st_members (RemoveAuthorizedIssuer 77) O1
           (Revert "User is not authorized") reachable_st_members).
  by vm_compute.
Defined.

(** X16: in a reachable state neither [getAllAuthorizedIssuers] nor
    [getAllAuthorizedRevokers] lists an address twice. *)
Theorem X16_lists_distinct st :
  reachable st →
  NoDup (getAllAuthorizedIssuers st) ∧ NoDup (getAllAuthorizedRevokers st).
Proof.
  intros Hr. destruct (reachable_invariant _ Hr) as [_ _ Hi Hv _].
  unfold getAllAuthorizedIssuers, getAllAuthorizedRevokers.
  split; by eapply index_ok_NoDup.
Qed.

Lemma X16_lists_distinct_witness :
  NoDup (getAllAuthorizedIssuers st_members).
Proof.
  exact (proj1 (X16_lists_distinct st_members reachable_st_members)).
Defined.

(** ** Rights follow the arrays at once *)

(** X17: membership takes effect with the call that changes it.  In a
    reachable state, right after an owner's successful add of an address as
    issuer (revoker) that address passes the authorization test of
    [storeDocument] ([revokeDocument]); right after a successful removal an
    address that is not an owner gets 'Not authorized to store' ('Not
    authorized to revoke') for every user and hash. *)
Theorem X17_rights_follow_lists st env a :
  reachable st →
  a ∉ owners st →
  (∀ st1 evs, addAuthorizedIssuer a env st = Ok (tt, st1, evs) →
     canStore st1 a = true) ∧
  (∀ st1 evs, removeAuthorizedIssuer a env st = Ok (tt, st1, evs) →
     ∀ env' u hash cid, msg_sender env' = a →
       storeDocument u hash cid env' st1 = Err (Revert "Not authorized to store")) ∧
  (∀ st1 evs, addAuthorizedRevoker a env st = Ok (tt, st1, evs) →
     canRevoke st1 a = true) ∧
  (∀ st1 evs, removeAuthorizedRevoker a env st = Ok (tt, st1, evs) →
     ∀ env' u hash, msg_sender env' = a →
       revokeDocument u hash env' st1 = Err (Revert "Not authorized to revoke")).
Proof.
  intros Hr Hno. destruct (reachable_invariant _ Hr) as [_ Ho Hi Hv _].
  pose proof (isOwner_false _ _ Ho Hno) as Hnot.
  split; [|split; [|split]].
  - intros st1 evs Hadd.
    assert (invariant st1) as [_ _ Hi1 _ _].
    { eapply (dispatch_invariant (AddAuthorizedIssuer a)); [|exact Hadd].
      by apply reachable_invariant. }
    apply (dispatch_Ok (AddAuthorizedIssuer a)) in Hadd as (_ & idx' & l' & Hm & -> & _).
    apply add_member_Ok in Hm as (_ & _ & -> & ->).
    unfold canStore, isIssuer. simpl in *.
    rewrite (index_of_pos _ _ _ Hi1); [done|].
    apply elem_of_app. right. apply list_elem_of_here.
  - intros st1 evs Hrm env' u hash cid <-.
    assert (invariant st1) as [Hs1 _ Hi1 _ _].
    { eapply (dispatch_invariant (RemoveAuthorizedIssuer _)); [|exact Hrm].
      by apply reachable_invariant. }
    apply (dispatch_Ok (RemoveAuthorizedIssuer _)) in Hrm as (_ & idx' & l' & Hm & -> & _).
    pose proof (remove_member_Ok_elem_of _ _ _ _ _ Hi Hm) as Hmem.
    rewrite storeDocument_eq, Hs1. unfold canStore, isIssuer. simpl in *.
    rewrite (index_of_zero _ _ _ Hi1) by (rewrite Hmem; by intros [_ ?]).
    change (isOwner (set_issuerIndex _ _)) with (isOwner st). by rewrite Hnot.
  - intros st1 evs Hadd.
    assert (invariant st1) as [_ _ _ Hv1 _].
    { eapply (dispatch_invariant (AddAuthorizedRevoker a)); [|exact Hadd].
      by apply reachable_invariant. }
    apply (dispatch_Ok (AddAuthorizedRevoker a)) in Hadd as (_ & idx' & l' & Hm & -> & _).
    apply add_member_Ok in Hm as (_ & _ & -> & ->).
    unfold canRevoke, isRevoker. simpl in *.
    rewrite (index_of_pos _ _ _ Hv1); [done|].
    apply elem_of_app. right. apply list_elem_of_here.
  - intros st1 evs Hrm env' u hash <-.
    assert (invariant st1) as [Hs1 _ _ Hv1 _].
    { eapply (dispatch_invariant (RemoveAuthorizedRevoker _)); [|exact Hrm].
      by apply reachable_invariant. }
    apply (dispatch_Ok (RemoveAuthorizedRevoker _)) in Hrm as (_ & idx' & l' & Hm & -> & _).
    pose proof (remove_member_Ok_elem_of _ _ _ _ _ Hv Hm) as Hmem.
    rewrite revokeDocument_eq, Hs1. unfold canRevoke, isRevoker. simpl in *.
    rewrite (index_of_zero _ _ _ Hv1) by (rewrite Hmem; by intros [_ ?]).
    change (isOwner (set_revokerIndex _ _)) with (isOwner st). by rewrite Hnot.
Qed.

Lemma X17_rights_follow_lists_witness :
  storeDocument 42 9 "cidC" I1 (run [(RemoveAuthorizedIssuer 201, O2)] st_stored)
    = Err (Revert "Not authorized to store").
Proof.
  assert (201 ∉ owners st_stored) as Hno.
  { change (201 ∉ [101; 102; 103]). apply (bool_decide_unpack _). by vm_compute. }
  pose proof (X17_rights_follow_lists st_stored O2 201 reachable_st_stored Hno)
    as (_ & Hrm & _).
  apply (Hrm (run [(RemoveAuthorizedIssuer 201, O2)] st_stored) [IssuerRemoved 201]);
    by vm_compute.
Defined.

(** X18: a revoked hash can be issued again.  In a reachable state, after a
    successful [revokeDocument] of a hash for a user, a [storeDocument] of
    the same hash for that user by an owner or issuer, with any reference,
    succeeds and appends the record. *)
Theorem X18_store_after_revoke st env u hash st1 evs1 env' cid :
  reachable st →
  revokeDocument u hash env st = Ok (tt, st1, evs1) →
  canStore st1 (msg_sender env') = true →
  ∃ st2, storeDocument u hash cid env' st1
           = Ok (tt, st2, [DocumentStored u hash cid]) ∧
    last (docs_of st2 u) = Some (mkDocument hash cid).
Proof.
  intros Hr Hrev Hauth.
  assert (reachable st1) as Hr1.
  { by apply (reachable_call st (RevokeDocument u hash) env st1 evs1). }
  destruct (reachable_invariant _ Hr) as [_ _ _ _ Hu].
  assert (hash ∉ sha256Hash <$> docs_of st1 u) as Hgone.
  { apply (dispatch_Ok (RevokeDocument u hash)) in Hrev as (_ & _ & Hfind).
    destruct (list_find _ _) as [[j d]|] eqn:Hf; destruct Hfind as [-> _].
    - rewrite docs_of_insert, decide_True by done.
      apply list_find_hash_Some in Hf as (Hj & <- & _).
      by apply swap_remove_docs.
    - by apply list_find_hash_None in Hf. }
  eexists. split; [by apply store_fresh|].
  rewrite docs_of_insert, decide_True by done. apply last_snoc.
Qed.

Lemma X18_store_after_revoke_witness :
  ∃ st2, storeDocument 42 7 "cidNew" I1 st_revoked
           = Ok (tt, st2, [DocumentStored 42 7 "cidNew"]) ∧
    last (docs_of st2 42) = Some (mkDocument 7 "cidNew").
Proof.
  apply (X18_store_after_revoke st_stored R1 42 7 st_revoked
           [DocumentRevoked 42 7 "cidA"] I1 "cidNew" reachable_st_stored);
    by vm_compute.
Defined.
